(** * go-func-formatter: reordering the methods of a Go file by name

    A shallow embedding of [cmd/root.go].  The command reads one Go file,
    parses it with [go/parser], collects the method declarations that are
    not constructors, sorts them by name and splices their texts, joined by
    a blank line, over the byte range that the methods spanned.

    The Go standard library is outside the repository.  The parts of it
    that [run] calls are modelled here from their documentation and their
    code ([token.FileSet.Position], [ast.FieldList.NumFields],
    [strings.HasPrefix], [strings.Join]); [parser.ParseFile] and
    [sort.Sort] are parameters, the latter with its contract. *)

From stdpp Require Import gmap strings list sorting.
From Stdlib Require Import ZArith.
Import Stdlib.Init.Byte.

Local Open Scope Z_scope.

#[global] Instance byte_eq_dec : EqDecision byte :=
  Stdlib.Strings.Byte.byte_eq_dec.

(** ** go/token *)

Module token.

(** [type Pos int]; [NoPos] is the zero value. *)
Definition Pos := Z.
Definition NoPos : Pos := 0.

(** A [FileSet] holding the one file that [parser.ParseFile] adds to a
    fresh set: [base] is 1 and [size] is the length of the source. *)
Record FileSet := { base : Z; size : Z }.

Definition NewFileSet_AddFile (len : Z) : FileSet :=
  {| base := 1; size := len |}.

(** [fSet.Position(p).Offset]: the zero [Position] (offset 0) for [NoPos]
    and for a position outside the file, [p - base] inside it. *)
Definition Offset (fSet : FileSet) (p : Pos) : Z :=
  if bool_decide (p ≠ NoPos) && bool_decide (base fSet ≤ p ≤ base fSet + size fSet)
  then p - base fSet
  else 0.

End token.

(** ** go/ast, as far as [run] reads it *)

Module ast.

Record Ident := { Name : string }.

(** A [Field] binds the names in [Names] (none for an anonymous field). *)
Record Field := { Names : list Ident }.

Record FieldList := { List : list Field }.

(** [CommentGroup.Pos()], the position of the first comment. *)
Record CommentGroup := { CommentGroup_Pos : token.Pos }.

(** A function declaration with the positions the parser reports:
    [FuncDecl_Pos] is [Pos()] (the [func] keyword) and [FuncDecl_End] is
    [End()] (just after the body, or after the signature when the
    declaration has no body). *)
Record FuncDecl := {
  Doc : option CommentGroup;
  Recv : option FieldList;
  FuncDecl_Name : Ident;
  FuncDecl_Pos : token.Pos;
  FuncDecl_End : token.Pos
}.

(** [ast.Decl] is implemented by [*BadDecl], [*GenDecl] and [*FuncDecl]. *)
Inductive Decl :=
| BadDecl (From To : token.Pos)
| GenDecl (Pos End : token.Pos)
| Func (d : FuncDecl).

(** [func (f *FieldList) NumFields() int]: 0 for a nil list; a field
    without names counts once. *)
Definition NumFields (f : option FieldList) : Z :=
  match f with
  | None => 0
  | Some fl =>
      foldl (fun n g =>
               let m := Z.of_nat (length (Names g)) in
               n + (if m =? 0 then 1 else m)) 0 (List fl)
  end.

Definition Decl_Pos (d : Decl) : token.Pos :=
  match d with
  | BadDecl p _ => p
  | GenDecl p _ => p
  | Func fd => FuncDecl_Pos fd
  end.

Definition Decl_End (d : Decl) : token.Pos :=
  match d with
  | BadDecl _ e => e
  | GenDecl _ e => e
  | Func fd => FuncDecl_End fd
  end.

End ast.

(** ** strings *)

Module strings.

(** [func HasPrefix(s, prefix string) bool]:
    [len(s) >= len(prefix) && s[:len(prefix)] == prefix]. *)
Definition HasPrefix (s prefix : string) : bool :=
  (String.length prefix <=? String.length s)%nat
  && String.eqb (String.substring 0 (String.length prefix) s) prefix.

(** [func Join(elems []string, sep string) string] over an alphabet [B]:
    the empty string for no element, the element itself for one, and
    otherwise the first element followed by [sep] and the element for
    each of the others. *)
Definition Join {B} (elems : list (list B)) (sep : list B) : list B :=
  match elems with
  | [] => []
  | [e] => e
  | e :: rest => e ++ concat (map (fun s => sep ++ s) rest)
  end.

End strings.

(** ** cmd/root.go *)

(** [type Method struct { decl *ast.FuncDecl; start token.Pos; end token.Pos }] *)
Record Method := {
  decl : ast.FuncDecl;
  start : token.Pos;
  end_ : token.Pos
}.

(** [m.decl.Name.Name] *)
Definition name (m : Method) : string :=
  ast.Name (ast.FuncDecl_Name (decl m)).

(** [ByName.Less] and [ByPos.Less] on the two elements they index; [Len]
    and [Swap] are those of the slice. *)
Definition ByName_Less (a b : Method) : bool :=
  String.ltb (name a) (name b).

Definition ByPos_Less (a b : Method) : bool :=
  start a <? start b.

(** The body of the loop over [file.Decls] (lines 66-85): [None] at each
    [continue], the [Method] appended otherwise. *)
Definition method_of (d : ast.Decl) : option Method :=
  match d with
  | ast.Func funcDecl =>
      match ast.Recv funcDecl with
      | None => None
      | Some _ =>
          if strings.HasPrefix (ast.Name (ast.FuncDecl_Name funcDecl)) "New"
             && (0 <? ast.NumFields (ast.Recv funcDecl))
          then None
          else
            let start :=
              match ast.Doc funcDecl with
              | Some doc => ast.CommentGroup_Pos doc
              | None => ast.FuncDecl_Pos funcDecl
              end in
            let end_ := ast.FuncDecl_End funcDecl in
            Some {| decl := funcDecl; start := start; end_ := end_ |}
      end
  | _ => None
  end.

(** [methods] after the loop (lines 63-86). *)
Definition methods (decls : list ast.Decl) : list Method :=
  omap method_of decls.

(** ** sort *)

Module sort.

(** The shape of [sort.Sort] on a slice: the comparison stands for the
    [Less] method, [Len] and [Swap] being those of the slice. *)
Definition SortFn := ∀ A : Type, (A → A → bool) → list A → list A.

(** The orders [Less] is documented to implement: a strict weak order. *)
Record StrictWeak {A} (less : A → A → bool) : Prop := {
  less_asym : ∀ a b, less a b = true → less b a = false;
  less_negtrans : ∀ a b c, less b a = false → less c b = false → less c a = false
}.

(** What [sort.Sort] promises: it only swaps elements, and it leaves the
    data in ascending order as determined by [Less].  It is not stable. *)
Record Contract (Sort : SortFn) : Prop := {
  Sort_perm : ∀ A less (l : list A), Sort A less l ≡ₚ l;
  Sort_sorted : ∀ A less (l : list A),
    StrictWeak less →
    StronglySorted (fun a b => less b a = false) (Sort A less l)
}.

(** The inner loop of [insertionSort]: [x] is swapped leftwards while it is
    less than its left neighbour; [before] holds the elements to the left
    of [x], nearest first. *)
Fixpoint sink {A} (less : A → A → bool) (x : A) (before : list A) : list A :=
  match before with
  | [] => [x]
  | y :: before' =>
      if less x y then y :: sink less x before' else x :: y :: before'
  end.

(** [insertionSort], which [sort.Sort] runs on a slice of at most 12
    elements (Go 1.19 and later); longer slices go through pattern-defeating
    quicksort, of which the theorems use the contract only. *)
Definition insertionSort : SortFn :=
  fun A less l => reverse (foldl (fun before x => sink less x before) [] l).

End sort.

(** ** The splice (lines 93-116) *)

Section Splice.

(** The alphabet of the buffer, with its newline; [byte] in [run]. *)
Context {B : Type} (nl : B).
Context (Sort : sort.SortFn).

Definition len (s : list B) : Z := Z.of_nat (length s).

Definition fSet (src : list B) : token.FileSet :=
  token.NewFileSet_AddFile (len src).

(** [s[lo:hi]]; [None] stands for the run-time panic of a slice
    expression out of range.  Go checks [hi] against the capacity; [run]
    only slices [src] at offsets of its file set, which are at most
    [len(src)]. *)
Definition slice (s : list B) (lo hi : Z) : option (list B) :=
  if bool_decide (0 ≤ lo ∧ lo ≤ hi ∧ hi ≤ len s)
  then Some (take (Z.to_nat (hi - lo)) (drop (Z.to_nat lo) s))
  else None.

Definition startOff (src : list B) (m : Method) : Z :=
  token.Offset (fSet src) (start m).

Definition endOff (src : list B) (m : Method) : Z :=
  token.Offset (fSet src) (end_ m).

(** [methods] after [sort.Sort(ByName(methods))]. *)
Definition sortedMethods (ms : list Method) : list Method :=
  Sort _ ByName_Less ms.

(** [posMethods] after [sort.Sort(ByPos(posMethods))]: a copy of the
    name-sorted slice, sorted by position. *)
Definition posMethods (ms : list Method) : list Method :=
  Sort _ ByPos_Less (sortedMethods ms).

(** [fSet.Position(posMethods[0].start).Offset]. *)
Definition firstStartOff (src : list B) (ms : list Method) : option Z :=
  m ← head (posMethods ms); Some (startOff src m).

(** [fSet.Position(posMethods[len(posMethods)-1].end).Offset]. *)
Definition lastEndOff (src : list B) (ms : list Method) : option Z :=
  m ← last (posMethods ms); Some (endOff src m).

(** [string(src[startOff:endOff])] for one method. *)
Definition source_of (src : list B) (m : Method) : option (list B) :=
  slice src (startOff src m) (endOff src m).

Definition sortedSources (src : list B) (ms : list Method)
  : option (list (list B)) :=
  mapM (source_of src) (sortedMethods ms).

Definition joined (src : list B) (ms : list Method) : option (list B) :=
  srcs ← sortedSources src ms; Some (strings.Join srcs [nl; nl]).

(** [newSrc.Bytes()] for a non-empty [methods]. *)
Definition newSrc (src : list B) (ms : list Method) : option (list B) :=
  firstStartOff ← firstStartOff src ms;
  lastEndOff ← lastEndOff src ms;
  joined ← joined src ms;
  before ← slice src 0 firstStartOff;
  after ← slice src lastEndOff (len src);
  Some (before ++ joined ++ after).

(** The two ways the pure part of [run] ends. *)
Inductive Outcome :=
| NoOp
| Rewritten (buf : list B).

(** Lines 62-116: from the source and its declarations to the outcome;
    [None] is a panic. *)
Definition rewrite (src : list B) (decls : list ast.Decl) : option Outcome :=
  let ms := methods decls in
  if bool_decide (length ms = 0%nat) then Some NoOp
  else Rewritten <$> newSrc src ms.

End Splice.

Arguments NoOp {B}.
Arguments Rewritten {B} buf.

(** ** The command (lines 48-138) *)

Module os.

(** What a run does to the outside: text printed on standard output and
    files written. *)
Inductive Event :=
| Stdout (text : string)
| WriteFile (name : string) (data : list byte).

(** The file system as a map from paths to contents, the paths the
    process may not write, and the events so far, oldest first. *)
Record World := {
  files : gmap string (list byte);
  denied : gset string;
  trace : list Event
}.

Definition emit (e : Event) (w : World) : World :=
  {| files := files w; denied := denied w; trace := trace w ++ [e] |}.

Definition ReadFile (w : World) (name : string) : option (list byte) :=
  files w !! name.

(** [os.WriteFile(name, data, 0644)]: [None] is an error. *)
Definition do_WriteFile (w : World) (name : string) (data : list byte)
  : option World :=
  if bool_decide (name ∈ denied w) then None
  else Some (emit (WriteFile name data)
               {| files := <[name := data]> (files w);
                  denied := denied w; trace := trace w |}).

End os.

(** The three errors [run] returns, each wrapping the collaborator's. *)
Inductive error :=
| failed_to_read_file (inputFile : string)
| failed_to_parse_file (inputFile : string)
| failed_to_write_to_file (inputFile : string).

Inductive Result :=
| Return (err : option error)
| Panicked.

Definition newline : byte := "010"%byte.

Section Run.

(** [parser.ParseFile(fSet, inputFile, src, parser.ParseComments)]: the
    declarations of the file, or [None] for an error. *)
Context (ParseFile : string → list byte → option (list ast.Decl)).
Context (Sort : sort.SortFn).

Definition run (w : os.World) (args : list string) : os.World * Result :=
  match args with
  | [] => (w, Panicked)
  | inputFile :: _ =>
      match os.ReadFile w inputFile with
      | None => (w, Return (Some (failed_to_read_file inputFile)))
      | Some src =>
          match ParseFile inputFile src with
          | None => (w, Return (Some (failed_to_parse_file inputFile)))
          | Some decls =>
              match rewrite newline Sort src decls with
              | None => (w, Panicked)
              | Some NoOp =>
                  (os.emit (os.Stdout "No methods to reorder
") w, Return None)
              | Some (Rewritten buf) =>
                  match os.do_WriteFile w inputFile buf with
                  | None =>
                      (w, Return (Some (failed_to_write_to_file inputFile)))
                  | Some w' =>
                      (os.emit (os.Stdout ("Methods reordered in "
                                           +:+ inputFile +:+ "
")) w',
                       Return None)
                  end
              end
          end
      end
  end.

End Run.

(** ** The invariants of the data model

    What the spec requires of the spans of the units, for the positions of
    one parse of [src]. *)

Section Invariants.

Context {B : Type}.

(** No unit ends before it starts. *)
Definition spans_ordered (src : list B) (ms : list Method) : Prop :=
  Forall (fun m => startOff src m ≤ endOff src m) ms.

(** Each unit starts at a position of the file and spans at least one
    byte: [start offset < end offset]. *)
Definition spans_in_file (src : list B) (ms : list Method) : Prop :=
  Forall (fun m => 1 ≤ start m ≤ 1 + len src
                   ∧ startOff src m < endOff src m) ms.

(** The spans of two different units do not overlap. *)
Definition non_overlapping (src : list B) (ms : list Method) : Prop :=
  ∀ (i j : nat) a b, i ≠ j → ms !! i = Some a → ms !! j = Some b →
    endOff src a ≤ startOff src b ∨ endOff src b ≤ startOff src a.

(** [x] is the least, the greatest, element of [l]. *)
Definition is_min (x : Z) (l : list Z) : Prop := x ∈ l ∧ ∀ y, y ∈ l → x ≤ y.
Definition is_max (x : Z) (l : list Z) : Prop := x ∈ l ∧ ∀ y, y ∈ l → y ≤ x.

(** The spec's words for the joined text: the texts in order, two
    newlines between consecutive ones, none before the first or after
    the last. *)
Fixpoint blank_line_separated (nl : B) (texts : list (list B)) : list B :=
  match texts with
  | [] => []
  | [t] => t
  | t :: rest => t ++ [nl; nl] ++ blank_line_separated nl rest
  end.

End Invariants.

(** A buffer with each byte tagged by its offset.  The splice is the same
    code on any alphabet, so on a tagged buffer its result tells, for each
    byte, the offset of the original it was copied from; the newlines it
    inserts carry no offset. *)
Definition tagged {B} (src : list B) : list (option nat * B) :=
  imap (fun i b => (Some i, b)) src.

(** ** The second parse

    A second run parses the buffer the first one wrote.  What the parser
    makes of that buffer is outside the repository; [relocated] says it for
    the units: the second parse selects the units of the first, each with
    its name and at the span where the splice has put its text.  The unit
    that comes first in the buffer may start elsewhere, at or before its
    end: it follows the text that was before the block, so a comment that
    ends that text may join its doc comment, and a token that ends that
    text may keep its doc comment from it. *)

(** The name and the span of a unit. *)
Record Span := {
  sp_name : string;
  sp_start : token.Pos;
  sp_end : token.Pos
}.

Definition span_of (m : Method) : Span :=
  {| sp_name := name m; sp_start := start m; sp_end := end_ m |}.

(** Where the splice puts the texts of [units], the first at offset [off]
    and two bytes between one and the next, as positions of a file with
    base 1. *)
Fixpoint placed_at {B} (src : list B) (off : Z) (units : list Method)
  : list Span :=
  match units with
  | [] => []
  | u :: rest =>
      let stop := off + (endOff src u - startOff src u) in
      {| sp_name := name u; sp_start := 1 + off; sp_end := 1 + stop |}
        :: placed_at src (stop + 2) rest
  end.

(** The spans with the first one started at [s0]. *)
Definition restart (s0 : token.Pos) (spans : list Span) : list Span :=
  match spans with
  | [] => []
  | k :: rest =>
      {| sp_name := sp_name k; sp_start := s0; sp_end := sp_end k |} :: rest
  end.

Definition relocated {B} (Sort : sort.SortFn) (src : list B)
    (decls decls2 : list ast.Decl) : Prop :=
  ∃ firstStart s0,
    let placed :=
      placed_at src firstStart (sortedMethods Sort (methods decls)) in
    firstStartOff Sort src (methods decls) = Some firstStart
    ∧ 1 ≤ s0
    ∧ (∀ k, head placed = Some k → s0 ≤ sp_end k)
    ∧ span_of <$> methods decls2 ≡ₚ restart s0 placed.

(** ** A sample file

    Three methods out of name order, the first with a doc comment, a free
    function and a "New..." method between them, and declarations before
    and after the block. *)

Module Sample.

Definition src : list byte := String.list_byte_of_string
"package p

type T struct{}

func NewT() *T { return &T{} }

// Zebra is last.
func (t *T) Zebra() {}

func helper() {}

func (t *T) Apple() {}

func (t *T) NewChild() *T { return t }

func (t *T) Mango() {}

var x int
".

(** The receiver list [(t *T)]. *)
Definition recv_t : option ast.FieldList :=
  Some {| ast.List := [ {| ast.Names := [ {| ast.Name := "t" |} ] |} ] |}.

Definition func (doc : option token.Pos) (recv : option ast.FieldList)
    (name : string) (pos end_ : token.Pos) : ast.Decl :=
  ast.Func {| ast.Doc := (fun p => {| ast.CommentGroup_Pos := p |}) <$> doc;
              ast.Recv := recv;
              ast.FuncDecl_Name := {| ast.Name := name |};
              ast.FuncDecl_Pos := pos;
              ast.FuncDecl_End := end_ |}.

Definition T_decl := ast.GenDecl 12 27.
Definition NewT := func None None "NewT" 29 59.
Definition Zebra := func (Some 61) recv_t "Zebra" 79 101.
Definition helper := func None None "helper" 103 119.
Definition Apple := func None recv_t "Apple" 121 143.
Definition NewChild := func None recv_t "NewChild" 145 183.
Definition Mango := func None recv_t "Mango" 185 207.
Definition x_decl := ast.GenDecl 209 218.

Definition decls : list ast.Decl :=
  [T_decl; NewT; Zebra; helper; Apple; NewChild; Mango; x_decl].

(** The file with only its first method, and with none. *)
Definition decls_one : list ast.Decl := [T_decl; NewT; Zebra; helper].
Definition decls_free : list ast.Decl := [T_decl; NewT; helper; x_decl].

(** What the rewrite makes of [src]. *)
Definition out : list byte := String.list_byte_of_string
"package p

type T struct{}

func NewT() *T { return &T{} }

func (t *T) Apple() {}

func (t *T) Mango() {}

// Zebra is last.
func (t *T) Zebra() {}

var x int
".

(** The declarations of [out]. *)
Definition out_decls : list ast.Decl :=
  [ T_decl; NewT;
    func None recv_t "Apple" 61 83;
    func None recv_t "Mango" 85 107;
    func (Some 109) recv_t "Zebra" 127 149;
    ast.GenDecl 151 160 ].

Definition path : string := "t.go".

(** A parser that knows the two files above. *)
Definition ParseFile (name : string) (s : list byte)
  : option (list ast.Decl) :=
  if bool_decide (s = src) then Some decls
  else if bool_decide (s = out) then Some out_decls
  else None.

Definition world : os.World :=
  {| os.files := {[ path := src ]}; os.denied := ∅; os.trace := [] |}.

(** A file in which a comment ends the text before the block, on the line
    of the first method. *)
Definition src_c : list byte := String.list_byte_of_string
"package p

/* c */ func (t T) B() {}

// doc A
func (t T) A() {}
".

Definition decls_c : list ast.Decl :=
  [func None recv_t "B" 20 37; func (Some 39) recv_t "A" 48 65].

(** What the rewrite makes of [src_c], and its declarations when the
    comment [c] has joined the doc comment of [A]. *)
Definition out_c : list byte := String.list_byte_of_string
"package p

/* c */ // doc A
func (t T) A() {}

func (t T) B() {}
".

Definition out_c_decls : list ast.Decl :=
  [func (Some 12) recv_t "A" 29 46; func None recv_t "B" 48 65].

End Sample.

(** ** The sort.Interface of [ByName] and [ByPos] (lines 22-32) *)

(** [m[i]] for an [int] index; [None] is the index-out-of-range panic. *)
Definition index {A} (m : list A) (i : Z) : option A :=
  if bool_decide (0 ≤ i) then m !! Z.to_nat i else None.

(** [type ByName []Method] with its three methods. *)
Module ByName.

Definition Len (m : list Method) : Z := Z.of_nat (length m).

(** [m[i], m[j] = m[j], m[i]]: both elements are read, then written. *)
Definition Swap (m : list Method) (i j : Z) : option (list Method) :=
  mi ← index m i; mj ← index m j;
  Some (<[Z.to_nat j := mi]> (<[Z.to_nat i := mj]> m)).

Definition Less (m : list Method) (i j : Z) : option bool :=
  mi ← index m i; mj ← index m j;
  Some (String.ltb (ast.Name (ast.FuncDecl_Name (decl mi)))
                   (ast.Name (ast.FuncDecl_Name (decl mj)))).

End ByName.

(** [type ByPos []Method] with its three methods. *)
Module ByPos.

Definition Len (m : list Method) : Z := Z.of_nat (length m).

Definition Swap (m : list Method) (i j : Z) : option (list Method) :=
  mi ← index m i; mj ← index m j;
  Some (<[Z.to_nat j := mi]> (<[Z.to_nat i := mj]> m)).

Definition Less (m : list Method) (i j : Z) : option bool :=
  mi ← index m i; mj ← index m j; Some (start mi <? start mj).

End ByPos.

(** ** sort.Interface and the insertion sort that runs on it *)

Module zsortinterface.

(** [type Interface interface { Len() int; Less(i, j int) bool;
    Swap(i, j int) }] for data of type [T]; a method that panics gives
    [None]. *)
Record Interface (T : Type) := {
  Len : T → Z;
  Less : T → Z → Z → option bool;
  Swap : T → Z → Z → option T
}.
Arguments Len {T}.
Arguments Less {T}.
Arguments Swap {T}.

(** [for j := i; j > a && data.Less(j, j-1); j-- { data.Swap(j, j-1) }]
    with [j = a + k]. *)
Fixpoint insertionSort_inner {T} (I : Interface T) (data : T) (a : Z) (k : nat)
  : option T :=
  match k with
  | O => Some data
  | S k' =>
      let j := a + Z.of_nat k in
      match Less I data j (j - 1) with
      | None => None
      | Some false => Some data
      | Some true =>
          data' ← Swap I data j (j - 1); insertionSort_inner I data' a k'
      end
  end.

(** [for i := a + 1; i < b; i++ { ... }] with [n] iterations left, so
    [i = b - n]. *)
Fixpoint insertionSort_outer {T} (I : Interface T) (data : T) (a b : Z) (n : nat)
  : option T :=
  match n with
  | O => Some data
  | S n' =>
      let i := b - Z.of_nat n in
      data' ← insertionSort_inner I data a (Z.to_nat (i - a));
      insertionSort_outer I data' a b n'
  end.

(** [func insertionSort(data Interface, a, b int)]. *)
Definition insertionSort {T} (I : Interface T) (data : T) (a b : Z) : option T :=
  insertionSort_outer I data a b (Z.to_nat (b - (a + 1))).

(** [sort.Sort(data)] on data of at most 12 elements:
    [n := data.Len()] and [insertionSort(data, 0, n)]. *)
Definition Sort_small {T} (I : Interface T) (data : T) : option T :=
  insertionSort I data 0 (Len I data).

End zsortinterface.

Definition ByName_Interface : zsortinterface.Interface (list Method) :=
  {| zsortinterface.Len := ByName.Len;
     zsortinterface.Less := ByName.Less;
     zsortinterface.Swap := ByName.Swap |}.

Definition ByPos_Interface : zsortinterface.Interface (list Method) :=
  {| zsortinterface.Len := ByPos.Len;
     zsortinterface.Less := ByPos.Less;
     zsortinterface.Swap := ByPos.Swap |}.

(** ** [rootCmd] and [Execute] (lines 34-46) *)

Module cobra.


End cobra.


Section Execute.

Context (ParseFile : string → list byte → option (list ast.Decl)).
Context (Sort : sort.SortFn).


End Execute.

(** ** A block that is already in order

    The units, in the order of the declarations, have ascending names
    (each at most the next), and each ends exactly two newlines before the
    next starts. *)
Fixpoint packed {B} (nl : B) (src : list B) (ms : list Method) : Prop :=
  match ms with
  | a :: rest =>
      match rest with
      | b :: _ =>
          String.leb (name a) (name b) = true
          ∧ slice src (endOff src a) (startOff src b) = Some [nl; nl]
      | [] => True
      end
      ∧ packed nl src rest
  | [] => True
  end.

(** The sum of the lengths of the spans of [ms]. *)
Definition spans_length {B} (src : list B) (ms : list Method) : Z :=
  foldr Z.add 0 ((fun m => endOff src m - startOff src m) <$> ms).

(** ** Selection *)

Lemma HasPrefix_spec (s prefix : string) :
  strings.HasPrefix s prefix = true ↔ ∃ rest, s = prefix +:+ rest.
Proof.
  unfold strings.HasPrefix. rewrite andb_true_iff, Nat.leb_le, String.eqb_eq.
  split.
  - intros [_ H]. revert s H.
    induction prefix as [|c p IH]; intros s H; simpl in *.
    + by exists s.
    + destruct s as [|c' s]; simpl in H; [done|].
      injection H as -> H. destruct (IH _ H) as [rest ->]. by exists rest.
  - intros [rest ->]. induction prefix as [|c p IH]; simpl.
    + split; [lia|]. by destruct rest.
    + destruct IH as [IH1 IH2]. split; [lia|]. by rewrite IH2.
Qed.

Lemma NumFields_pos (f : option ast.FieldList) :
  0 < ast.NumFields f ↔ ∃ fl, f = Some fl ∧ ast.List fl ≠ [].
Proof.
  set (step := fun (n : Z) (g : ast.Field) =>
                 let m := Z.of_nat (length (ast.Names g)) in
                 n + (if m =? 0 then 1 else m)).
  assert (Hstep : ∀ n g, n < step n g).
  { intros n g. unfold step. simpl. case_match; lia. }
  assert (Hmono : ∀ l n, n ≤ foldl step n l ∧ (l ≠ [] → n < foldl step n l)).
  { induction l as [|g l IH]; intros n; simpl.
    - split; [lia|done].
    - destruct (IH (step n g)) as [IH1 _]. specialize (Hstep n g).
      split; [lia|]. intros _. lia. }
  destruct f as [fl|]; simpl.
  - split.
    + intros H. exists fl. split; [done|]. intros E. rewrite E in H. simpl in H. lia.
    + intros (fl' & [= <-] & Hne). by apply (Hmono (ast.List fl) 0).
  - split; [lia|]. by intros (? & ? & _).
Qed.

Example HasPrefix_New :
  strings.HasPrefix "NewChild" "New" = true
  ∧ strings.HasPrefix "New" "New" = true
  ∧ strings.HasPrefix "Ne" "New" = false
  ∧ strings.HasPrefix "newChild" "New" = false
  ∧ strings.HasPrefix "Renew" "New" = false.
Proof. by vm_compute. Qed.

(** [func () NewT() {}]: the receiver is present and its list is empty, so
    the name does not exclude the declaration. *)
Example method_of_empty_receiver_list :
  is_Some (method_of (Sample.func None (Some {| ast.List := [] |}) "NewT" 29 47))
  ∧ method_of Sample.NewT = None
  ∧ method_of Sample.NewChild = None
  ∧ method_of Sample.helper = None
  ∧ method_of Sample.T_decl = None.
Proof. split; [by eexists|by vm_compute]. Qed.

(** C1.  A declaration yields a unit exactly when it is a function
    declaration whose receiver is present and which is not both named with
    the prefix "New" and given a non-empty receiver field list.  A free
    function, and a method named "New..." on a non-empty receiver list, is
    never selected. *)
Theorem C1_selection_policy (d : ast.Decl) :
  (is_Some (method_of d) ↔
     ∃ fd, d = ast.Func fd
           ∧ ast.Recv fd ≠ None
           ∧ ¬ ((∃ rest, ast.Name (ast.FuncDecl_Name fd) = "New" +:+ rest)
                ∧ ∃ fl, ast.Recv fd = Some fl ∧ ast.List fl ≠ []))
  ∧ (∀ fd, d = ast.Func fd → ast.Recv fd = None → method_of d = None)
  ∧ (∀ fd fl rest, d = ast.Func fd →
       ast.Recv fd = Some fl → ast.List fl ≠ [] →
       ast.Name (ast.FuncDecl_Name fd) = "New" +:+ rest →
       method_of d = None).
Proof.
  assert (Hguard : ∀ fd,
    strings.HasPrefix (ast.Name (ast.FuncDecl_Name fd)) "New"
      && (0 <? ast.NumFields (ast.Recv fd)) = true
    ↔ (∃ rest, ast.Name (ast.FuncDecl_Name fd) = "New" +:+ rest)
      ∧ ∃ fl, ast.Recv fd = Some fl ∧ ast.List fl ≠ []).
  { intros fd. by rewrite andb_true_iff, HasPrefix_spec, Z.ltb_lt, NumFields_pos. }
  split; [|split].
  - destruct d as [| |fd]; simpl.
    + split; [by intros [? ?]|by intros (? & ? & _)].
    + split; [by intros [? ?]|by intros (? & ? & _)].
    + destruct (ast.Recv fd) as [fl|] eqn:Hrecv.
      * specialize (Hguard fd). rewrite Hrecv in Hguard.
        destruct (_ && _) eqn:Hg.
        -- split; [by intros [? ?]|]. intros (fd' & [= <-] & _ & Hn).
           exfalso. apply Hn. rewrite Hrecv. by apply Hguard.
        -- split; [|by eauto]. intros _. exists fd. split; [done|].
           split; [by rewrite Hrecv|]. rewrite Hrecv. intros Hc.
           apply Hguard in Hc. done.
      * split; [by intros [? ?]|]. intros (fd' & [= <-] & Hn & _).
        by rewrite Hrecv in Hn.
  - intros fd -> Hrecv. simpl. by rewrite Hrecv.
  - intros fd fl rest -> Hrecv Hne Hname. simpl. rewrite Hrecv.
    specialize (Hguard fd). rewrite Hrecv in Hguard.
    destruct (_ && _); [done|].
    assert (false = true) as Hf; [|done]. apply Hguard. eauto.
Qed.

(** ** Orders and sorting *)

Lemma String_compare_Lt_trans (a b c : string) :
  String.compare a b = Lt → String.compare b c = Lt → String.compare a c = Lt.
Proof.
  revert b c. induction a as [|x a IH]; intros [|y b] [|z c]; simpl; try done.
  unfold Ascii.compare.
  destruct (N.compare_spec (Ascii.N_of_ascii x) (Ascii.N_of_ascii y));
    destruct (N.compare_spec (Ascii.N_of_ascii y) (Ascii.N_of_ascii z));
    destruct (N.compare_spec (Ascii.N_of_ascii x) (Ascii.N_of_ascii z));
    try done; try lia.
  apply IH.
Qed.

Lemma String_ltb_irrefl (a : string) : String.ltb a a = false.
Proof.
  unfold String.ltb. pose proof (String.compare_antisym a a) as H.
  by destruct (String.compare a a).
Qed.

Lemma String_ltb_StrictWeak : sort.StrictWeak String.ltb.
Proof.
  split.
  - intros a b. unfold String.ltb. rewrite (String.compare_antisym b a).
    by destruct (String.compare a b).
  - intros a b c Hba Hcb. unfold String.ltb in *.
    destruct (String.compare c a) eqn:Hca; try done. exfalso.
    destruct (String.compare c b) eqn:Ecb; try done.
    + apply String.compare_eq_iff in Ecb as ->. by rewrite Hca in Hba.
    + rewrite String.compare_antisym in Ecb.
      destruct (String.compare b c) eqn:Ebc; try done.
      by rewrite (String_compare_Lt_trans _ _ _ Ebc Hca) in Hba.
Qed.

Lemma String_ltb_total (a b : string) :
  String.ltb a b = false → String.ltb b a = false → a = b.
Proof.
  unfold String.ltb. rewrite (String.compare_antisym b a).
  destruct (String.compare a b) eqn:E; try done.
  intros _ _. by apply String.compare_eq_iff.
Qed.

Lemma String_leb_ltb (a b : string) : String.leb a b = negb (String.ltb b a).
Proof.
  unfold String.leb, String.ltb. rewrite (String.compare_antisym b a).
  by destruct (String.compare a b).
Qed.

Lemma StrictWeak_by_key {A K} (less : K → K → bool) (key : A → K) :
  sort.StrictWeak less → sort.StrictWeak (fun a b => less (key a) (key b)).
Proof. intros [H1 H2]. split; eauto. Qed.

Lemma ByName_StrictWeak : sort.StrictWeak ByName_Less.
Proof.
  apply (StrictWeak_by_key String.ltb name), String_ltb_StrictWeak.
Qed.

Lemma ByPos_StrictWeak : sort.StrictWeak ByPos_Less.
Proof.
  split; unfold ByPos_Less; intros *; rewrite ?Z.ltb_lt, ?Z.ltb_ge; lia.
Qed.

Section InsertionSort.

Context {A : Type} (less : A → A → bool).

Lemma sink_perm (x : A) (before : list A) :
  sort.sink less x before ≡ₚ x :: before.
Proof.
  induction before as [|y r IH]; simpl; [done|].
  destruct (less x y); [|done]. rewrite IH. apply Permutation_swap.
Qed.

Lemma sink_sorted (x : A) (before : list A) :
  sort.StrictWeak less →
  StronglySorted (fun a b => less a b = false) before →
  StronglySorted (fun a b => less a b = false) (sort.sink less x before).
Proof.
  intros [Hasym Hneg]. induction before as [|y r IH]; simpl; intros Hs.
  - repeat constructor.
  - apply StronglySorted_cons in Hs as [Hy Hr].
    destruct (less x y) eqn:Hxy.
    + apply StronglySorted_cons. split; [|by apply IH].
      rewrite sink_perm. constructor; [by apply Hasym|done].
    + apply StronglySorted_cons. split.
      * constructor; [done|]. eapply Forall_impl; [exact Hy|].
        intros z Hyz. simpl in Hyz. by apply (Hneg z y x).
      * by apply StronglySorted_cons.
Qed.

Lemma StronglySorted_rev (R : A → A → Prop) (l : list A) :
  StronglySorted (fun a b => R b a) l → StronglySorted R (reverse l).
Proof.
  induction 1 as [|x l Hl IH Hx]; [constructor|]. rewrite reverse_cons.
  apply StronglySorted_app; split_and!; [|done|repeat constructor].
  intros a b Ha Hb. apply list_elem_of_singleton in Hb as ->.
  rewrite Forall_forall in Hx. apply Hx. by apply elem_of_reverse.
Qed.

Lemma insertionSort_perm (l : list A) : sort.insertionSort A less l ≡ₚ l.
Proof.
  unfold sort.insertionSort. rewrite reverse_Permutation.
  assert (H : ∀ acc, foldl (fun before x => sort.sink less x before) acc l
                     ≡ₚ acc ++ l).
  { induction l as [|x l IH]; intros acc; simpl.
    - by rewrite app_nil_r.
    - rewrite IH, sink_perm. simpl. apply Permutation_middle. }
  by rewrite H.
Qed.

Lemma insertionSort_sorted (l : list A) :
  sort.StrictWeak less →
  StronglySorted (fun a b => less b a = false) (sort.insertionSort A less l).
Proof.
  intros Hsw. unfold sort.insertionSort. apply StronglySorted_rev.
  assert (H : ∀ acc, StronglySorted (fun a b => less a b = false) acc →
    StronglySorted (fun a b => less a b = false)
      (foldl (fun before x => sort.sink less x before) acc l)).
  { induction l as [|x l IH]; intros acc Hacc; simpl; [done|].
    by apply IH, sink_sorted. }
  apply H. constructor.
Qed.

End InsertionSort.

Lemma insertionSort_Contract : sort.Contract sort.insertionSort.
Proof.
  split.
  - intros A less l. apply insertionSort_perm.
  - intros A less l. apply insertionSort_sorted.
Qed.

(** ** Offsets and slices *)

Section Slices.

Context {B : Type}.
Implicit Types (src s : list B) (m : Method).

Lemma Offset_bounds src (p : token.Pos) :
  0 ≤ token.Offset (fSet src) p ≤ len src.
Proof.
  unfold token.Offset, fSet, len. simpl.
  destruct (bool_decide (p ≠ token.NoPos)); simpl; [|lia].
  case_bool_decide; lia.
Qed.

Lemma Offset_in_file src (p : token.Pos) :
  1 ≤ p ≤ 1 + len src → token.Offset (fSet src) p = p - 1.
Proof.
  intros Hp. unfold token.Offset, fSet, token.NoPos. simpl.
  rewrite !bool_decide_eq_true_2 by lia. done.
Qed.

Lemma len_app s (t : list B) : len (s ++ t) = len s + len t.
Proof. unfold len. rewrite length_app. lia. Qed.

Lemma slice_Some s (lo hi : Z) :
  0 ≤ lo → lo ≤ hi → hi ≤ len s →
  slice s lo hi = Some (take (Z.to_nat (hi - lo)) (drop (Z.to_nat lo) s)).
Proof. intros. unfold slice. by rewrite bool_decide_eq_true_2. Qed.

Lemma slice_is_Some s (lo hi : Z) t :
  slice s lo hi = Some t →
  0 ≤ lo ∧ lo ≤ hi ∧ hi ≤ len s
  ∧ t = take (Z.to_nat (hi - lo)) (drop (Z.to_nat lo) s).
Proof.
  unfold slice. destruct (bool_decide_reflect (0 ≤ lo ∧ lo ≤ hi ∧ hi ≤ len s))
    as [(? & ? & ?)|]; [|done].
  intros [= <-]. done.
Qed.

Lemma slice_prefix s (hi : Z) :
  0 ≤ hi → hi ≤ len s → slice s 0 hi = Some (take (Z.to_nat hi) s).
Proof. intros. rewrite slice_Some by lia. by rewrite Z.sub_0_r, drop_0. Qed.

Lemma slice_suffix s (lo : Z) :
  0 ≤ lo → lo ≤ len s → slice s lo (len s) = Some (drop (Z.to_nat lo) s).
Proof.
  intros. rewrite slice_Some by lia. f_equal. apply take_ge.
  rewrite length_drop. unfold len. lia.
Qed.

Lemma slice_length s (lo hi : Z) t :
  slice s lo hi = Some t → len t = hi - lo.
Proof.
  intros (? & ? & ? & ->)%slice_is_Some. unfold len in *.
  rewrite length_take, length_drop. lia.
Qed.

Lemma slice_lookup s (lo hi : Z) t (k : nat) :
  slice s lo hi = Some t → (k < length t)%nat →
  t !! k = s !! (Z.to_nat lo + k)%nat.
Proof.
  intros Hs Hk. pose proof (slice_length _ _ _ _ Hs) as Hl.
  apply slice_is_Some in Hs as (? & ? & ? & ->). unfold len in *.
  rewrite lookup_take_lt by lia. by rewrite lookup_drop.
Qed.

Lemma source_of_is_Some src m :
  startOff src m ≤ endOff src m → is_Some (source_of src m).
Proof.
  intros H. unfold source_of, startOff, endOff in *.
  pose proof (Offset_bounds src (start m)).
  pose proof (Offset_bounds src (end_ m)).
  rewrite slice_Some by lia. by eexists.
Qed.

End Slices.

Lemma StronglySorted_lookup {A} (R : A → A → Prop) (l : list A)
    (i j : nat) (a b : A) :
  StronglySorted R l → l !! i = Some a → l !! j = Some b → (i < j)%nat → R a b.
Proof.
  intros Hs. revert i j. induction Hs as [|x l Hl IH Hx]; intros i j Hi Hj Hij.
  - done.
  - destruct j as [|j]; [lia|]. destruct i as [|i]; simpl in *.
    + injection Hi as ->. rewrite Forall_forall in Hx.
      by apply Hx, (list_elem_of_lookup_2 _ j).
    + apply (IH i j); [done..|lia].
Qed.

Lemma elem_of_Join {B} (x : B) (texts : list (list B)) (sep : list B) :
  x ∈ strings.Join texts sep → x ∈ sep ∨ ∃ t, t ∈ texts ∧ x ∈ t.
Proof.
  assert (∀ rest, x ∈ concat (map (fun s => sep ++ s) rest) →
                  x ∈ sep ∨ ∃ t, t ∈ rest ∧ x ∈ t) as Hrest.
  { induction rest as [|u rest IH]; simpl; [by intros ?%not_elem_of_nil|].
    rewrite !elem_of_app. intros [[Hx|Hx]|Hx].
    - by left.
    - right. exists u. split; [by left|done].
    - destruct (IH Hx) as [?|(t & Ht & ?)]; [by left|].
      right. exists t. split; [by right|done]. }
  destruct texts as [|t rest]; [by intros ?%not_elem_of_nil|].
  assert (x ∈ t ++ concat (map (fun s => sep ++ s) rest) →
          x ∈ sep ∨ ∃ t', t' ∈ t :: rest ∧ x ∈ t') as H.
  { rewrite elem_of_app. intros [Hx|Hx].
    - right. exists t. split; [by left|done].
    - destruct (Hrest rest Hx) as [?|(t' & Ht' & ?)]; [by left|].
      right. exists t'. split; [by right|done]. }
  simpl. destruct rest as [|u rest]; [|exact H].
  intros Hx. right. exists t. split; [by left|done].
Qed.

Lemma Join_blank_line_separated {B} (nl : B) (texts : list (list B)) :
  strings.Join texts [nl; nl] = blank_line_separated nl texts.
Proof.
  destruct texts as [|t rest]; [done|].
  revert t. induction rest as [|u rest IH]; intros t; [done|].
  specialize (IH u). simpl in *. destruct rest as [|v rest].
  - simpl. by rewrite app_nil_r.
  - rewrite <- IH. done.
Qed.

(** ** The splice *)

Section Assembler.

Context {B : Type} (nl : B).
Context (Sort : sort.SortFn) (HSort : sort.Contract Sort).
Implicit Types (src : list B) (ms : list Method) (m : Method).

Lemma sortedMethods_perm ms : sortedMethods Sort ms ≡ₚ ms.
Proof. apply HSort. Qed.

Lemma posMethods_perm ms : posMethods Sort ms ≡ₚ ms.
Proof. unfold posMethods. by rewrite (sort.Sort_perm _ HSort), sortedMethods_perm. Qed.

Lemma posMethods_head_last ms :
  ms ≠ [] →
  ∃ first last_, head (posMethods Sort ms) = Some first
                 ∧ last (posMethods Sort ms) = Some last_
                 ∧ first ∈ ms ∧ last_ ∈ ms.
Proof.
  intros Hne. pose proof (posMethods_perm ms) as Hp.
  destruct (posMethods Sort ms) as [|x l] eqn:E.
  { apply Permutation_nil_l in Hp. done. }
  destruct (last (x :: l)) as [y|] eqn:El.
  - exists x, y. split_and!; [done|done|..].
    + rewrite <- Hp. by left.
    + rewrite <- Hp. by apply last_Some_elem_of.
  - by apply last_None in El.
Qed.

Lemma sortedSources_Some src ms :
  spans_ordered src ms →
  ∃ texts, sortedSources Sort src ms = Some texts
           ∧ Forall2 (fun m t => source_of src m = Some t)
                     (sortedMethods Sort ms) texts.
Proof.
  intros Hs. unfold spans_ordered in Hs.
  rewrite <- (sortedMethods_perm ms) in Hs.
  destruct (mapM_is_Some_2 (source_of src) (sortedMethods Sort ms))
    as [texts Ht].
  { eapply Forall_impl; [exact Hs|]. intros m. apply source_of_is_Some. }
  exists texts. split; [done|]. by apply mapM_Some.
Qed.

(** [newSrc] does not panic on ordered spans, and is the splice. *)
Lemma newSrc_Some src ms :
  ms ≠ [] → spans_ordered src ms →
  ∃ first last_ texts,
    head (posMethods Sort ms) = Some first
    ∧ last (posMethods Sort ms) = Some last_
    ∧ sortedSources Sort src ms = Some texts
    ∧ newSrc nl Sort src ms
      = Some (take (Z.to_nat (startOff src first)) src
              ++ strings.Join texts [nl; nl]
              ++ drop (Z.to_nat (endOff src last_)) src).
Proof.
  intros Hne Hs.
  destruct (posMethods_head_last ms Hne) as (first & last_ & Hh & Hl & _).
  destruct (sortedSources_Some src ms Hs) as (texts & Ht & _).
  exists first, last_, texts. split_and!; [done..|].
  unfold newSrc, firstStartOff, lastEndOff, joined.
  rewrite Hh, Hl, Ht. simpl.
  pose proof (Offset_bounds src (start first)).
  pose proof (Offset_bounds src (end_ last_)).
  unfold startOff, endOff.
  rewrite slice_prefix, slice_suffix by lia. done.
Qed.

Lemma rewrite_Rewritten src decls :
  methods decls ≠ [] →
  rewrite nl Sort src decls = Rewritten <$> newSrc nl Sort src (methods decls).
Proof.
  intros Hne. unfold rewrite. rewrite bool_decide_eq_false_2; [done|].
  by destruct (methods decls).
Qed.

(** C2.  With at least one unit selected, the buffer produced is
    [source[0:firstStart] + joinedText + source[lastEnd:]]; a byte before
    [firstStart] keeps its index, and a byte at or after [lastEnd] keeps
    its distance to [lastEnd], behind the joined text. *)
Theorem C2_splice_frame src decls :
  methods decls ≠ [] →
  spans_ordered src (methods decls) →
  ∃ firstStart lastEnd joinedText buf,
    firstStartOff Sort src (methods decls) = Some firstStart
    ∧ lastEndOff Sort src (methods decls) = Some lastEnd
    ∧ joined nl Sort src (methods decls) = Some joinedText
    ∧ rewrite nl Sort src decls = Some (Rewritten buf)
    ∧ buf = take (Z.to_nat firstStart) src ++ joinedText
            ++ drop (Z.to_nat lastEnd) src
    ∧ (∀ i : nat, (i < Z.to_nat firstStart)%nat → buf !! i = src !! i)
    ∧ (∀ i : nat, (Z.to_nat lastEnd ≤ i)%nat →
         buf !! (Z.to_nat firstStart + length joinedText
                 + (i - Z.to_nat lastEnd))%nat = src !! i).
Proof.
  intros Hne Hs.
  destruct (newSrc_Some src _ Hne Hs) as (first & last_ & texts & Hh & Hl & Ht & Hn).
  eexists _, _, _, _. split_and!.
  - unfold firstStartOff. by rewrite Hh.
  - unfold lastEndOff. by rewrite Hl.
  - unfold joined. by rewrite Ht.
  - rewrite rewrite_Rewritten by done. by rewrite Hn.
  - done.
  - intros i Hi. rewrite lookup_app_l.
    + by apply lookup_take_lt.
    + rewrite length_take. pose proof (Offset_bounds src (start first)).
      unfold startOff, len in *. lia.
  - intros i Hi.
    pose proof (Offset_bounds src (start first)) as Hb.
    assert (length (take (Z.to_nat (startOff src first)) src)
            = Z.to_nat (startOff src first)) as Hlen.
    { rewrite length_take. unfold startOff, len in *. lia. }
    rewrite lookup_app_r by lia. rewrite Hlen.
    rewrite lookup_app_r by lia. rewrite lookup_drop. f_equal. lia.
Qed.

(** C3.  The units are laid out in the buffer in an order in which the
    name of each is at most the name of the next, byte-wise. *)
Theorem C3_sorted_by_name src decls :
  methods decls ≠ [] →
  spans_ordered src (methods decls) →
  ∃ units texts before after,
    units ≡ₚ methods decls
    ∧ Forall2 (fun m t => source_of src m = Some t) units texts
    ∧ rewrite nl Sort src decls
      = Some (Rewritten (before ++ blank_line_separated nl texts ++ after))
    ∧ ∀ (i : nat) a b, units !! i = Some a → units !! S i = Some b →
        String.leb (name a) (name b) = true.
Proof.
  intros Hne Hs.
  destruct (newSrc_Some src _ Hne Hs) as (first & last_ & texts & _ & _ & Ht & Hn).
  destruct (sortedSources_Some src _ Hs) as (texts' & Ht' & HF).
  rewrite Ht in Ht'. injection Ht' as <-.
  exists (sortedMethods Sort (methods decls)), texts. eexists _, _.
  split_and!.
  - apply sortedMethods_perm.
  - done.
  - rewrite rewrite_Rewritten, Hn, Join_blank_line_separated by done. done.
  - intros i a b Ha Hb.
    pose proof (sort.Sort_sorted _ HSort _ _ (methods decls) ByName_StrictWeak)
      as Hsorted.
    pose proof (StronglySorted_lookup _ _ i (S i) a b Hsorted Ha Hb) as H.
    simpl in H. unfold ByName_Less in H.
    rewrite String_leb_ltb, H by lia. done.
Qed.

(** C4.  The joined text is the units' texts in output order with exactly
    two newlines between consecutive ones and nothing before the first or
    after the last, and each text is the bytes of its span in the
    original buffer. *)
Theorem C4_separator src decls :
  methods decls ≠ [] →
  spans_ordered src (methods decls) →
  ∃ firstStart lastEnd texts,
    firstStartOff Sort src (methods decls) = Some firstStart
    ∧ lastEndOff Sort src (methods decls) = Some lastEnd
    ∧ rewrite nl Sort src decls
      = Some (Rewritten (take (Z.to_nat firstStart) src
                         ++ blank_line_separated nl texts
                         ++ drop (Z.to_nat lastEnd) src))
    ∧ Forall2 (fun m t =>
                 len t = endOff src m - startOff src m
                 ∧ ∀ k : nat, (k < length t)%nat →
                     t !! k = src !! (Z.to_nat (startOff src m) + k)%nat)
              (sortedMethods Sort (methods decls)) texts.
Proof.
  intros Hne Hs.
  destruct (newSrc_Some src _ Hne Hs) as (first & last_ & texts & Hh & Hl & Ht & Hn).
  destruct (sortedSources_Some src _ Hs) as (texts' & Ht' & HF).
  rewrite Ht in Ht'. injection Ht' as <-.
  eexists _, _, texts. split_and!.
  - unfold firstStartOff. by rewrite Hh.
  - unfold lastEndOff. by rewrite Hl.
  - rewrite rewrite_Rewritten, Hn, Join_blank_line_separated by done. done.
  - eapply Forall2_impl; [exact HF|]. intros m t Hm. split.
    + by apply slice_length in Hm.
    + intros k Hk. by apply (slice_lookup _ _ _ _ _ Hm).
Qed.

(** C5.  A selected unit starts at the offset of the doc comment of its
    declaration when there is one, at the offset of the declaration
    otherwise, and ends at the offset of the declaration's end. *)
Theorem C5_span_offsets src decls m :
  m ∈ methods decls →
  ast.Func (decl m) ∈ decls
  ∧ startOff src m
    = token.Offset (fSet src)
        match ast.Doc (decl m) with
        | Some doc => ast.CommentGroup_Pos doc
        | None => ast.FuncDecl_Pos (decl m)
        end
  ∧ endOff src m = token.Offset (fSet src) (ast.FuncDecl_End (decl m)).
Proof.
  unfold methods. rewrite list_elem_of_omap. intros (d & Hd & Hm).
  destruct d as [| |fd]; simpl in Hm; try done.
  destruct (ast.Recv fd); [|done]. destruct (_ && _); [done|].
  injection Hm as <-. simpl. split_and!; [done|..].
  - unfold startOff. simpl. by destruct (ast.Doc fd).
  - done.
Qed.

Lemma non_overlapping_perm src ms ms' :
  ms' ≡ₚ ms → non_overlapping src ms → non_overlapping src ms'.
Proof.
  intros (_ & f & Hinj & Hf)%Permutation_inj Hno i j a b Hij Ha Hb.
  rewrite Hf in Ha, Hb. apply (Hno (f i) (f j)); [|done..].
  intros E. by apply Hinj in E.
Qed.

(** C9.  Under the invariants of the data model (every unit starts in the
    file and spans at least one byte, and no two spans overlap) the
    splice starts at the least start offset and ends at the greatest end
    offset of the units. *)
Theorem C9_splice_bounds src decls :
  methods decls ≠ [] →
  spans_in_file src (methods decls) →
  non_overlapping src (methods decls) →
  ∃ firstStart lastEnd,
    firstStartOff Sort src (methods decls) = Some firstStart
    ∧ lastEndOff Sort src (methods decls) = Some lastEnd
    ∧ is_min firstStart (startOff src <$> methods decls)
    ∧ is_max lastEnd (endOff src <$> methods decls).
Proof.
  intros Hne Hin Hno. set (ms := methods decls) in *.
  destruct (posMethods_head_last ms Hne) as (first & last_ & Hh & Hl & Hf & Hla).
  pose proof (posMethods_perm ms) as Hperm.
  pose proof (sort.Sort_sorted _ HSort _ _ (sortedMethods Sort ms) ByPos_StrictWeak)
    as Hsorted. fold (posMethods Sort ms) in Hsorted.
  apply (non_overlapping_perm _ _ _ Hperm) in Hno.
  unfold spans_in_file in Hin. rewrite <- Hperm in Hin.
  rewrite Forall_forall in Hin.
  assert (Hoff : ∀ m, m ∈ posMethods Sort ms → startOff src m = start m - 1).
  { intros m Hm. apply Offset_in_file. by apply Hin. }
  exists (startOff src first), (endOff src last_).
  rewrite head_lookup in Hh. rewrite last_lookup in Hl.
  split_and!.
  - unfold firstStartOff. by rewrite head_lookup, Hh.
  - unfold lastEndOff. by rewrite last_lookup, Hl.
  - split; [by apply list_elem_of_fmap_2|].
    intros y (m & -> & Hm)%list_elem_of_fmap.
    rewrite <- Hperm in Hm. pose proof Hm as Hm'.
    apply list_elem_of_lookup in Hm as [i Hi].
    rewrite !Hoff; [|done|by eapply list_elem_of_lookup_2].
    destruct i as [|i]; [by simplify_eq|].
    pose proof (StronglySorted_lookup _ _ 0 (S i) _ _ Hsorted Hh Hi) as H.
    simpl in H. unfold ByPos_Less in H. rewrite Z.ltb_ge in H; lia.
  - split; [by apply list_elem_of_fmap_2|].
    intros y (m & -> & Hm)%list_elem_of_fmap.
    rewrite <- Hperm in Hm. pose proof Hm as Hm'.
    apply list_elem_of_lookup in Hm as [i Hi].
    set (n := pred (length (posMethods Sort ms))) in *.
    destruct (decide (i = n)) as [->|Hi']; [by simplify_eq|].
    assert (i < n)%nat as Hlt.
    { apply lookup_lt_Some in Hi. lia. }
    pose proof (StronglySorted_lookup _ _ i n _ _ Hsorted Hi Hl Hlt) as H.
    simpl in H. unfold ByPos_Less in H. rewrite Z.ltb_ge in H.
    assert (last_ ∈ posMethods Sort ms) as Hl' by by eapply list_elem_of_lookup_2.
    pose proof (Hoff m Hm'). pose proof (Hoff last_ Hl').
    destruct (Hin last_ Hl') as [_ ?].
    destruct (Hno i n m last_ Hi' Hi Hl); lia.
Qed.

End Assembler.

(** ** Where the bytes of the output come from *)

Section Parametricity.

Context {B : Type} (nl : B).
Context (Sort : sort.SortFn).
Implicit Types (src : list B) (ms : list Method) (m : Method).

Lemma slice_fmap {C} (f : B → C) src (lo hi : Z) :
  slice (f <$> src) lo hi = fmap (M:=option) (fmap (M:=list) f) (slice src lo hi).
Proof.
  unfold slice, len. rewrite length_fmap. case_bool_decide; [|done].
  simpl. by rewrite fmap_take, fmap_drop.
Qed.

Lemma Join_fmap {C} (f : B → C) (texts : list (list B)) (sep : list B) :
  strings.Join (fmap (M:=list) f <$> texts) (f <$> sep)
  = f <$> strings.Join texts sep.
Proof.
  destruct texts as [|t rest]; [done|]. simpl.
  destruct rest as [|u rest]; [done|].
  rewrite fmap_app. f_equal. generalize (u :: rest). intros l.
  induction l as [|v l IH]; [done|]. simpl.
  by rewrite !fmap_app, <- IH.
Qed.

Lemma fSet_fmap {C} (f : B → C) src : fSet (f <$> src) = fSet src.
Proof. unfold fSet, len. by rewrite length_fmap. Qed.

Lemma source_of_fmap {C} (f : B → C) src m :
  source_of (f <$> src) m
  = fmap (M:=option) (fmap (M:=list) f) (source_of src m).
Proof.
  unfold source_of, startOff, endOff. rewrite fSet_fmap. apply slice_fmap.
Qed.

Lemma newSrc_fmap {C} (f : B → C) src ms :
  newSrc (f nl) Sort (f <$> src) ms
  = fmap (M:=option) (fmap (M:=list) f) (newSrc nl Sort src ms).
Proof.
  unfold newSrc, firstStartOff, lastEndOff, joined, sortedSources.
  destruct (head (posMethods Sort ms)) as [first|]; [simpl|done].
  destruct (last (posMethods Sort ms)) as [last_|]; [simpl|done].
  assert (mapM (source_of (f <$> src)) (sortedMethods Sort ms)
          = fmap (M:=option) (fmap (M:=list) (fmap (M:=list) f))
              (mapM (source_of src) (sortedMethods Sort ms)))
    as ->.
  { induction (sortedMethods Sort ms) as [|m l IH]; [done|].
    csimpl. rewrite source_of_fmap.
    destruct (source_of src m); [csimpl|done].
    unfold mbind in *. rewrite IH. by destruct (mapM (source_of src) l). }
  destruct (mapM (source_of src) (sortedMethods Sort ms)) as [texts|];
    [simpl|done].
  unfold startOff, endOff, len. rewrite !fSet_fmap, length_fmap.
  fold (len src). rewrite !slice_fmap.
  destruct (slice src 0 _); [simpl|done].
  destruct (slice src _ (len src)); [simpl|done].
  rewrite !fmap_app. do 3 f_equal. apply (Join_fmap f texts [nl; nl]).
Qed.

End Parametricity.

Section Provenance.

Context {B : Type} (nl : B).
Context (Sort : sort.SortFn) (HSort : sort.Contract Sort).
Implicit Types (src : list B) (ms : list Method) (m : Method).

Lemma tagged_snd src : snd <$> tagged src = src.
Proof.
  unfold tagged. rewrite fmap_imap. apply list_eq. intros i.
  rewrite list_lookup_imap. by destruct (src !! i).
Qed.

Lemma tagged_lookup src (k i : nat) (b : B) :
  tagged src !! k = Some (Some i, b) → i = k.
Proof.
  unfold tagged. rewrite list_lookup_imap. destruct (src !! k); naive_solver.
Qed.

Lemma tagged_offsets src m :
  startOff (tagged src) m = startOff src m
  ∧ endOff (tagged src) m = endOff src m.
Proof.
  unfold startOff, endOff, fSet, len, tagged. by rewrite length_imap.
Qed.

(** A byte of the tagged output that carries an offset was copied from
    before [firstStart], from [lastEnd] on, or from the span of a unit. *)
Lemma newSrc_tagged_origin src ms tbuf (i : nat) (b : B) :
  newSrc (None, nl) Sort (tagged src) ms = Some tbuf →
  (Some i, b) ∈ tbuf →
  ∃ firstStart lastEnd,
    firstStartOff Sort src ms = Some firstStart
    ∧ lastEndOff Sort src ms = Some lastEnd
    ∧ (Z.of_nat i < firstStart ∨ lastEnd ≤ Z.of_nat i
       ∨ ∃ m, m ∈ ms ∧ startOff src m ≤ Z.of_nat i < endOff src m).
Proof.
  unfold newSrc, firstStartOff, lastEndOff, joined, sortedSources.
  destruct (head (posMethods Sort ms)) as [first|]; [simpl|done].
  destruct (last (posMethods Sort ms)) as [last_|]; [simpl|done].
  destruct (mapM _ _) as [texts|] eqn:Ht; [simpl|done].
  destruct (tagged_offsets src first) as [-> _].
  destruct (tagged_offsets src last_) as [_ ->].
  destruct (slice (tagged src) 0 _) as [before|] eqn:Hb; [simpl|done].
  destruct (slice (tagged src) _ (len (tagged src))) as [after|] eqn:Ha;
    [simpl|done].
  intros [= <-] Hin. eexists _, _. split_and!; [done..|].
  apply slice_is_Some in Hb as (_ & _ & _ & ->).
  apply slice_is_Some in Ha as (? & _ & _ & ->).
  rewrite !elem_of_app in Hin. destruct Hin as [Hin|[Hin|Hin]].
  - left. rewrite Z.sub_0_r, drop_0 in Hin.
    apply elem_of_take in Hin as (k & Hk & Hlt).
    apply tagged_lookup in Hk as ->. lia.
  - right; right. apply mapM_Some in Ht.
    apply elem_of_Join in Hin as [Hin|(t & Ht' & Hit)].
    { rewrite !elem_of_cons in Hin. destruct Hin as [?|[?|?%not_elem_of_nil]]; done. }
    apply list_elem_of_lookup in Ht' as [n Hn].
    destruct (Forall2_lookup_r _ _ _ _ _ Ht Hn) as (m & Hm & Hsrc).
    exists m. split.
    { rewrite <- (sortedMethods_perm Sort HSort ms).
      by eapply list_elem_of_lookup_2. }
    unfold source_of in Hsrc.
    destruct (tagged_offsets src m) as [Es Ee]. rewrite Es, Ee in Hsrc.
    apply list_elem_of_lookup in Hit as [k Hk].
    pose proof (lookup_lt_Some _ _ _ Hk) as Hlt.
    pose proof (slice_length _ _ _ _ Hsrc) as Hlen.
    rewrite (slice_lookup _ _ _ _ _ Hsrc Hlt) in Hk.
    apply slice_is_Some in Hsrc as (? & ? & ? & _).
    apply tagged_lookup in Hk as ->. unfold len in Hlen. lia.
  - right; left. apply elem_of_take in Hin as (k & Hk & _).
    rewrite lookup_drop in Hk. apply tagged_lookup in Hk as ->. lia.
Qed.

(** C6.  The bytes of the tagged output come from before [firstStart],
    from [lastEnd] on, or from the span of a selected unit.  So a
    declaration that is not selected, lies in [[firstStart, lastEnd)] and
    overlaps no unit has none of its bytes in the buffer produced. *)
Theorem C6_region_replaced src decls :
  methods decls ≠ [] →
  spans_ordered src (methods decls) →
  ∃ firstStart lastEnd tbuf,
    firstStartOff Sort src (methods decls) = Some firstStart
    ∧ lastEndOff Sort src (methods decls) = Some lastEnd
    ∧ rewrite (None, nl) Sort (tagged src) decls = Some (Rewritten tbuf)
    ∧ rewrite nl Sort src decls = Some (Rewritten (snd <$> tbuf))
    ∧ (∀ (i : nat) b, (Some i, b) ∈ tbuf →
         Z.of_nat i < firstStart ∨ lastEnd ≤ Z.of_nat i
         ∨ ∃ m, m ∈ methods decls
                ∧ startOff src m ≤ Z.of_nat i < endOff src m)
    ∧ ∀ d, d ∈ decls → method_of d = None →
        firstStart ≤ token.Offset (fSet src) (ast.Decl_Pos d) →
        token.Offset (fSet src) (ast.Decl_End d) ≤ lastEnd →
        (∀ m, m ∈ methods decls →
           endOff src m ≤ token.Offset (fSet src) (ast.Decl_Pos d)
           ∨ token.Offset (fSet src) (ast.Decl_End d) ≤ startOff src m) →
        ∀ (i : nat) b,
          token.Offset (fSet src) (ast.Decl_Pos d) ≤ Z.of_nat i
            < token.Offset (fSet src) (ast.Decl_End d) →
          (Some i, b) ∉ tbuf.
Proof.
  intros Hne Hs.
  assert (spans_ordered (tagged src) (methods decls)) as Hs'.
  { eapply Forall_impl; [exact Hs|]. intros m Hm. simpl in *.
    by destruct (tagged_offsets src m) as [-> ->]. }
  destruct (newSrc_Some (None, nl) Sort HSort (tagged src) _ Hne Hs')
    as (first & last_ & texts & Hh & Hl & _ & Hn).
  set (tbuf := take _ _ ++ _ ++ drop _ _) in Hn.
  assert (Horigin : ∀ (i : nat) b, (Some i, b) ∈ tbuf →
    Z.of_nat i < startOff src first ∨ endOff src last_ ≤ Z.of_nat i
    ∨ ∃ m, m ∈ methods decls ∧ startOff src m ≤ Z.of_nat i < endOff src m).
  { intros i b Hi.
    destruct (newSrc_tagged_origin src _ tbuf i b Hn Hi)
      as (fs & le & Hfs & Hle & Hor).
    unfold firstStartOff in Hfs. unfold lastEndOff in Hle.
    rewrite Hh in Hfs. rewrite Hl in Hle. by simplify_eq/=. }
  exists (startOff src first), (endOff src last_), tbuf. split_and!.
  - unfold firstStartOff. by rewrite Hh.
  - unfold lastEndOff. by rewrite Hl.
  - by rewrite rewrite_Rewritten, Hn.
  - rewrite rewrite_Rewritten by done.
    pose proof (newSrc_fmap (None, nl) Sort snd (tagged src) (methods decls)) as Hf.
    simpl in Hf. rewrite tagged_snd, Hn in Hf. by rewrite Hf.
  - done.
  - intros d _ _ Hlo Hhi Hdis i b Hi Hin.
    destruct (Horigin i b Hin) as [?|[?|(m & Hm & ?)]]; [lia..|].
    destruct (Hdis m Hm); lia.
Qed.

End Provenance.

(** ** Running twice *)

Lemma same_by_key {A K} (f : A → K) (l : list A) (x y : A) :
  NoDup (f <$> l) → x ∈ l → y ∈ l → f x = f y → x = y.
Proof.
  induction l as [|z l IH]; csimpl; [by intros _ ?%not_elem_of_nil|].
  rewrite NoDup_cons, !elem_of_cons. intros [Hz Hnd] [->|Hx] [->|Hy] E.
  - done.
  - exfalso. apply Hz. rewrite E. by apply list_elem_of_fmap_2.
  - exfalso. apply Hz. rewrite <- E. by apply list_elem_of_fmap_2.
  - by apply IH.
Qed.

Lemma StronglySorted_lt_NoDup {A} (f : A → Z) (l : list A) :
  StronglySorted (fun a b => f a < f b) l → NoDup (f <$> l).
Proof.
  induction 1 as [|x l Hl IH Hx]; csimpl; constructor; [|done].
  intros (y & E & Hy)%list_elem_of_fmap. rewrite Forall_forall in Hx.
  specialize (Hx y Hy). lia.
Qed.

Lemma StronglySorted_fmap_inv {A K} (f : A → K) (R : K → K → Prop) (l : list A) :
  StronglySorted R (f <$> l) → StronglySorted (fun a b => R (f a) (f b)) l.
Proof.
  induction l as [|x l IH]; csimpl; [constructor|].
  intros [Hx Hl]%StronglySorted_cons. constructor; [by apply IH|].
  by rewrite Forall_fmap in Hx.
Qed.

(** Two lists with the same elements, both ascending by a key without
    repetitions, are equal. *)
Lemma sorted_by_key_unique {A K} (f : A → K) (less : K → K → bool)
    (l1 l2 : list A) :
  (∀ a b, less a b = false → less b a = false → a = b) →
  NoDup (f <$> l2) →
  StronglySorted (fun a b => less (f b) (f a) = false) l1 →
  StronglySorted (fun a b => less (f b) (f a) = false) l2 →
  l1 ≡ₚ l2 → l1 = l2.
Proof.
  intros Htotal Hnd H1 H2 Hp.
  apply (StronglySorted_unique_strong _ _ _ (λ x1 x2 Hx1 Hx2 R12 R21,
    same_by_key f l2 x1 x2 Hnd ltac:(by rewrite <- Hp) Hx2
      (Htotal _ _ R21 R12)) H1 H2 Hp).
Qed.

Lemma Z_ltb_total (a b : Z) : (a <? b) = false → (b <? a) = false → a = b.
Proof. rewrite !Z.ltb_ge. lia. Qed.

Section Placed.

Context {B : Type}.
Implicit Types (src out pre post : list B) (U : list Method).

Lemma placed_names src off U :
  sp_name <$> placed_at src off U = name <$> U.
Proof.
  revert off. induction U as [|u U IH]; intros off; csimpl; [done|].
  by rewrite IH.
Qed.

Lemma placed_starts src off U :
  spans_ordered src U →
  StronglySorted (fun a b => sp_end a < sp_start b) (placed_at src off U)
  ∧ Forall (fun k => 1 + off ≤ sp_start k ∧ sp_start k ≤ sp_end k)
           (placed_at src off U).
Proof.
  intros Hs. revert off. induction Hs as [|u U Hu _ IH]; intros off; simpl.
  - split; constructor.
  - destruct (IH (off + (endOff src u - startOff src u) + 2)) as [IH1 IH2].
    split.
    + constructor; [done|]. eapply Forall_impl; [exact IH2|].
      intros k Hk. simpl in *. lia.
    + constructor; [simpl; lia|]. eapply Forall_impl; [exact IH2|].
      intros k Hk. simpl in *. lia.
Qed.

Lemma restart_names (s0 : token.Pos) (P : list Span) :
  sp_name <$> restart s0 P = sp_name <$> P.
Proof. by destruct P. Qed.

(** Restarting the first span at or before its end keeps the starts in
    strictly ascending order. *)
Lemma restart_starts (s0 : token.Pos) (P : list Span) :
  StronglySorted (fun a b => sp_end a < sp_start b) P →
  Forall (fun k => sp_start k ≤ sp_end k) P →
  (∀ k, head P = Some k → s0 ≤ sp_end k) →
  StronglySorted (fun a b => sp_start a < sp_start b) (restart s0 P).
Proof.
  intros Hs Hle H0.
  assert (StronglySorted (fun a b => sp_start a < sp_start b) P) as Hstrict.
  { clear H0. induction Hs as [|k P HP IH Hk]; constructor.
    - apply IH. by apply Forall_inv_tail in Hle.
    - apply Forall_inv in Hle. eapply Forall_impl; [exact Hk|].
      intros k' Hk'. simpl in *. lia. }
  destruct P as [|k P]; simpl; [constructor|].
  apply StronglySorted_cons in Hs as [Hk _].
  apply StronglySorted_cons in Hstrict as [_ HP].
  constructor; [done|]. specialize (H0 k eq_refl).
  eapply Forall_impl; [exact Hk|]. intros k' Hk'. simpl in *. lia.
Qed.

Lemma blank_line_separated_cons (nl : B) (t : list B) (texts : list (list B)) :
  blank_line_separated nl (t :: texts)
  = t ++ match texts with
         | [] => []
         | _ => [nl; nl] ++ blank_line_separated nl texts
         end.
Proof. destruct texts; simpl; [by rewrite app_nil_r|done]. Qed.

Lemma slice_middle pre (t : list B) post :
  slice (pre ++ t ++ post) (len pre) (len pre + len t) = Some t.
Proof.
  unfold slice, len. rewrite !length_app.
  rewrite bool_decide_eq_true_2 by lia. f_equal.
  replace (Z.to_nat (Z.of_nat (length pre))) with (length pre) by lia.
  rewrite drop_app_length.
  replace (Z.to_nat _) with (length t) by lia.
  by rewrite take_app_length.
Qed.

(** In a buffer [pre ++ texts-with-blank-lines ++ post] the text of each
    unit is the slice at the span where [placed_at] puts it, and the last
    span ends where [post] begins. *)
Lemma placed_sources (nl : B) src U (texts : list (list B)) :
  Forall2 (fun u t => source_of src u = Some t) U texts →
  ∀ pre post,
    Forall2 (fun k t =>
               1 ≤ sp_start k
               ∧ sp_end k ≤ 1 + len (pre ++ blank_line_separated nl texts ++ post)
               ∧ slice (pre ++ blank_line_separated nl texts ++ post)
                   (sp_start k - 1) (sp_end k - 1) = Some t)
            (placed_at src (len pre) U) texts
    ∧ ∀ k, last (placed_at src (len pre) U) = Some k →
           sp_end k = 1 + len pre + len (blank_line_separated nl texts).
Proof.
  induction 1 as [|u t U texts Hut HF IH]; intros pre post.
  { split; [constructor|done]. }
  pose proof (slice_length _ _ _ _ Hut) as Hlen.
  rewrite blank_line_separated_cons. simpl placed_at.
  rewrite <- Hlen.
  destruct HF as [|u' t' U' texts' Hut' HF'].
  - simpl. rewrite app_nil_r. split.
    + constructor; [|constructor]. simpl. split_and!.
      * unfold len. lia.
      * unfold len. rewrite !length_app. lia.
      * replace (1 + len pre - 1) with (len pre) by lia.
        replace (1 + (len pre + len t) - 1) with (len pre + len t) by lia.
        apply slice_middle.
    + intros k [= <-]. simpl. lia.
  - set (rest := blank_line_separated nl (t' :: texts')) in *.
    specialize (IH (pre ++ t ++ [nl; nl]) post).
    assert (len (pre ++ t ++ [nl; nl]) = len pre + len t + 2) as Hpre.
    { unfold len. rewrite !length_app. simpl. lia. }
    rewrite Hpre in IH.
    assert ((pre ++ t ++ [nl; nl]) ++ rest ++ post
            = pre ++ (t ++ [nl; nl] ++ rest) ++ post) as Hout.
    { by rewrite <- !app_assoc. }
    rewrite Hout in IH. destruct IH as [IH1 IH2]. split.
    + constructor; [|exact IH1]. simpl. split_and!.
      * unfold len. lia.
      * unfold len. rewrite !length_app. lia.
      * replace (1 + len pre - 1) with (len pre) by lia.
        replace (1 + (len pre + len t) - 1) with (len pre + len t) by lia.
        rewrite <- (app_assoc t). apply slice_middle.
    + intros k Hk.
      assert (last (placed_at src (len pre + len t + 2) (u' :: U')) = Some k)
        as Hk'.
      { simpl in Hk |- *. exact Hk. }
      rewrite (IH2 k Hk'). unfold len. rewrite !length_app. simpl. lia.
Qed.

End Placed.

Section Idempotence.

Context {B : Type} (nl : B).
Context (Sort : sort.SortFn) (HSort : sort.Contract Sort).
Implicit Types (src out : list B) (ms : list Method).

Lemma newSrc_inv src ms out :
  newSrc nl Sort src ms = Some out →
  ∃ first last_ texts,
    head (posMethods Sort ms) = Some first
    ∧ last (posMethods Sort ms) = Some last_
    ∧ Forall2 (fun m t => source_of src m = Some t) (sortedMethods Sort ms) texts
    ∧ out = take (Z.to_nat (startOff src first)) src
            ++ blank_line_separated nl texts
            ++ drop (Z.to_nat (endOff src last_)) src.
Proof.
  unfold newSrc, firstStartOff, lastEndOff, joined, sortedSources.
  destruct (head (posMethods Sort ms)) as [first|]; [simpl|done].
  destruct (last (posMethods Sort ms)) as [last_|]; [simpl|done].
  destruct (mapM _ _) as [texts|] eqn:Ht; [simpl|done].
  destruct (slice src 0 _) as [before|] eqn:Hb; [simpl|done].
  destruct (slice src _ (len src)) as [after|] eqn:Ha; [simpl|done].
  intros [= <-]. exists first, last_, texts. split_and!; [done..| |].
  - by apply mapM_Some.
  - pose proof (Offset_bounds src (start first)).
    pose proof (Offset_bounds src (end_ last_)).
    unfold startOff, endOff in *.
    rewrite slice_prefix in Hb by lia. rewrite slice_suffix in Ha by lia.
    rewrite <- Join_blank_line_separated. by simplify_eq.
Qed.

(** The units of a run in output order, when the second parse finds them
    where the first run has put them: sorting them again by name, and
    then by position, changes nothing. *)
Lemma relocated_sorted src ms ms2 (off : Z) (s0 : token.Pos) :
  NoDup (name <$> ms) →
  spans_ordered src ms →
  (∀ k, head (placed_at src off (sortedMethods Sort ms)) = Some k →
        s0 ≤ sp_end k) →
  span_of <$> ms2 ≡ₚ restart s0 (placed_at src off (sortedMethods Sort ms)) →
  span_of <$> sortedMethods Sort ms2
    = restart s0 (placed_at src off (sortedMethods Sort ms))
  ∧ span_of <$> posMethods Sort ms2
    = restart s0 (placed_at src off (sortedMethods Sort ms)).
Proof.
  intros Hnd Hs H0 Hp. set (U := sortedMethods Sort ms) in *.
  assert (U ≡ₚ ms) as HU by apply (sort.Sort_perm _ HSort).
  assert (spans_ordered src U) as HsU.
  { unfold spans_ordered. by rewrite HU. }
  destruct (placed_starts src off U HsU) as [Hends Hbounds].
  assert (StronglySorted (fun a b => sp_start a < sp_start b)
            (restart s0 (placed_at src off U))) as Hstarts.
  { apply restart_starts; [done| |done].
    eapply Forall_impl; [exact Hbounds|]. by intros k [_ ?]. }
  split.
  - apply (sorted_by_key_unique sp_name String.ltb).
    + apply String_ltb_total.
    + rewrite restart_names, placed_names. by rewrite HU.
    + apply (StronglySorted_fmap span_of (fun a b => ByName_Less b a = false));
        [done|].
      apply (sort.Sort_sorted _ HSort), ByName_StrictWeak.
    + apply (StronglySorted_fmap_inv sp_name (fun a b => String.ltb b a = false)).
      rewrite restart_names, placed_names.
      apply (StronglySorted_fmap name (fun a b => ByName_Less b a = false));
        [done|].
      apply (sort.Sort_sorted _ HSort), ByName_StrictWeak.
    + rewrite <- Hp. apply fmap_Permutation, (sort.Sort_perm _ HSort).
  - apply (sorted_by_key_unique sp_start Z.ltb).
    + apply Z_ltb_total.
    + by apply StronglySorted_lt_NoDup.
    + apply (StronglySorted_fmap span_of (fun a b => ByPos_Less b a = false));
        [done|].
      apply (sort.Sort_sorted _ HSort), ByPos_StrictWeak.
    + rewrite <- (list_fmap_id (restart s0 (placed_at src off U))).
      apply (StronglySorted_fmap id (fun a b => sp_start a < sp_start b));
        [|done].
      intros a b Hab. simpl. apply Z.ltb_ge. lia.
    + rewrite <- Hp. apply fmap_Permutation.
      unfold posMethods. rewrite (sort.Sort_perm _ HSort).
      apply (sort.Sort_perm _ HSort).
Qed.

Lemma restart_last_end (s0 : token.Pos) (P : list Span) :
  sp_end <$> last (restart s0 P) = sp_end <$> last P.
Proof. by destruct P as [|k [|k' P]]. Qed.

(** The rewrite of its own output, parsed as [relocated] says, is that
    output. *)
Lemma rewrite_idempotent src decls decls2 out1 :
  rewrite nl Sort src decls = Some (Rewritten out1) →
  NoDup (name <$> methods decls) →
  relocated Sort src decls decls2 →
  rewrite nl Sort out1 decls2 = Some (Rewritten out1).
Proof.
  intros Hrw Hnd (fs & s0 & Hrel). cbv zeta in Hrel.
  destruct Hrel as (Hfs & Hs0 & Hhead & Hp). unfold rewrite in Hrw.
  case_bool_decide as Hlen; [done|].
  destruct (newSrc nl Sort src (methods decls)) as [out|] eqn:Hn; [|done].
  injection Hrw as ->.
  apply newSrc_inv in Hn as (first & last_ & texts & Hh & Hl & HF & Hout).
  unfold firstStartOff in Hfs. rewrite Hh in Hfs. simpl in Hfs.
  injection Hfs as <-.
  set (ms := methods decls) in *. set (ms2 := methods decls2) in *.
  set (U := sortedMethods Sort ms) in *.
  assert (spans_ordered src ms) as Hs.
  { unfold spans_ordered. rewrite <- (sort.Sort_perm _ HSort _ ByName_Less ms).
    fold (sortedMethods Sort ms). fold U.
    clear -HF. induction HF as [|u t ? ? Hu]; constructor; [|done].
    apply slice_is_Some in Hu. lia. }
  destruct (relocated_sorted src ms ms2 _ s0 Hnd Hs Hhead Hp) as [HS2 HP2].
  fold U in HS2, HP2.
  set (pre := take (Z.to_nat (startOff src first)) src) in *.
  set (post := drop (Z.to_nat (endOff src last_)) src) in *.
  assert (len pre = startOff src first) as Hpre.
  { pose proof (Offset_bounds src (start first)).
    unfold pre, len, startOff in *. rewrite length_take. lia. }
  destruct (placed_sources nl src U texts HF pre post) as [Hsrc Hlast].
  rewrite Hpre, <- Hout in Hsrc. rewrite Hpre in Hlast.
  (* the units of the first run, and their texts *)
  assert (U ≠ []) as HU.
  { intros E. apply Hlen.
    rewrite <- (Permutation_length (sort.Sort_perm _ HSort _ ByName_Less ms)).
    fold (sortedMethods Sort ms). fold U. by rewrite E. }
  destruct U as [|u0 U'] eqn:EU; [done|].
  destruct texts as [|t0 texts']; [by apply Forall2_cons_nil_inv in HF|].
  set (tail := match texts' with
               | [] => []
               | _ => [nl; nl] ++ blank_line_separated nl texts'
               end).
  rewrite blank_line_separated_cons in Hout, Hlast. fold tail in Hout, Hlast.
  simpl placed_at in *.
  set (k0 := {| sp_name := name u0;
                sp_start := 1 + startOff src first;
                sp_end := 1 + (startOff src first
                               + (endOff src u0 - startOff src u0)) |}) in *.
  set (P' := placed_at src _ U') in *.
  apply Forall2_cons in Hsrc as [(_ & Hk0e & Hk0) Hsrc'].
  pose proof (slice_length _ _ _ _ Hk0) as Hlen0.
  specialize (Hhead k0 eq_refl).
  assert (len out1 = len pre + len t0 + len tail + len post) as Hlen1.
  { rewrite Hout. unfold len. rewrite !length_app. lia. }
  assert (0 ≤ len post ∧ 0 ≤ len tail ∧ 0 ≤ len t0 ∧ 0 ≤ len pre) as Hnn
    by (unfold len; lia).
  (* the first and the last unit of the second run by position *)
  simpl restart in *.
  destruct (posMethods Sort ms2) as [|f2 Pos2'] eqn:EP; [done|].
  assert (sp_start (span_of f2) = s0) as Hf2.
  { apply (f_equal head) in HP2. simpl in HP2.
    injection HP2 as _ Hst _. exact Hst. }
  destruct (last (k0 :: P')) as [kl|] eqn:Ekl; [|by apply last_None in Ekl].
  pose proof (Hlast kl eq_refl) as Hkl.
  assert (∃ l2, last (f2 :: Pos2') = Some l2 ∧ sp_end (span_of l2) = sp_end kl)
    as (l2 & Hl2 & El2).
  { pose proof (restart_last_end s0 (k0 :: P')) as Hre.
    simpl restart in Hre. rewrite <- HP2, fmap_last, Ekl in Hre.
    destruct (last (f2 :: Pos2')) as [l2|]; [|done].
    exists l2. split; [done|]. by injection Hre. }
  (* the texts of its units *)
  set (t0' := take (Z.to_nat (sp_end k0 - 1 - (s0 - 1)))
                (drop (Z.to_nat (s0 - 1)) out1)).
  assert (mapM (source_of out1) (sortedMethods Sort ms2) = Some (t0' :: texts'))
    as Ht2.
  { apply mapM_Some.
    assert (Forall2 (fun k t =>
              slice out1 (token.Offset (fSet out1) (sp_start k))
                         (token.Offset (fSet out1) (sp_end k)) = Some t)
              ({| sp_name := sp_name k0; sp_start := s0; sp_end := sp_end k0 |}
                 :: P') (t0' :: texts')) as H.
    { constructor.
      - simpl sp_start. simpl sp_end. rewrite !Offset_in_file by (simpl in *; lia).
        apply slice_Some; simpl in *; lia.
      - eapply Forall2_impl; [exact Hsrc'|]. intros k t (H1 & H2 & H3).
        simpl in *. apply slice_is_Some in H3 as H4.
        destruct H4 as (? & ? & ? & _). rewrite !Offset_in_file by lia. done. }
    apply (Forall2_fmap_l span_of
             (fun k t => slice out1 (token.Offset (fSet out1) (sp_start k))
                           (token.Offset (fSet out1) (sp_end k)) = Some t)).
    replace (span_of <$> sortedMethods Sort ms2)
      with ({| sp_name := sp_name k0; sp_start := s0; sp_end := sp_end k0 |}
              :: P') by (symmetry; exact HS2).
    exact H. }
  rewrite rewrite_Rewritten;
    [|intros E; fold ms2 in E; rewrite E in Hp; by apply Permutation_nil_l in Hp].
  fold ms2. f_equal.
  unfold newSrc, firstStartOff, lastEndOff, joined, sortedSources.
  rewrite EP, Hl2, Ht2. simpl.
  assert (startOff out1 f2 = s0 - 1) as ->.
  { unfold startOff. simpl in Hf2, Hhead. rewrite Offset_in_file; simpl in *; lia. }
  assert (endOff out1 l2 = len pre + len t0 + len tail) as ->.
  { unfold endOff. simpl in El2. rewrite El2, Hkl, len_app.
    rewrite Offset_in_file; lia. }
  simpl in Hhead, Hk0e.
  rewrite slice_prefix, slice_suffix by lia. simpl. f_equal.
  change (match texts' with
          | [] => t0'
          | _ :: _ => t0' ++ concat (map (fun s => nl :: nl :: s) texts')
          end) with (strings.Join (t0' :: texts') [nl; nl]).
  rewrite Join_blank_line_separated, blank_line_separated_cons. fold tail.
  assert (take (Z.to_nat (s0 - 1)) out1 ++ t0' = pre ++ t0) as Hfront.
  { unfold t0'. rewrite take_take_drop, Hout. simpl sp_end.
    replace (pre ++ (t0 ++ tail) ++ post) with ((pre ++ t0) ++ tail ++ post)
      by (by rewrite <- !app_assoc).
    apply take_app_length'. simpl in Hlen0.
    rewrite length_app. unfold len in *. lia. }
  assert (drop (Z.to_nat (len pre + len t0 + len tail)) out1 = post) as ->.
  { rewrite Hout, !app_assoc. apply drop_app_length'.
    unfold len. rewrite !length_app. lia. }
  f_equal. rewrite <- (app_assoc t0'), (app_assoc (take _ out1)), Hfront, Hout.
  by rewrite <- !app_assoc.
Qed.

End Idempotence.

(** ** The command *)

Lemma take_mid_drop {A} (l : list A) (a b : nat) :
  (a ≤ b)%nat → take a l ++ take (b - a) (drop a l) ++ drop b l = l.
Proof.
  intros Hab. replace (drop b l) with (drop (b - a) (drop a l)).
  - by rewrite take_drop, take_drop.
  - rewrite drop_drop. f_equal. lia.
Qed.

Lemma only_free_functions_no_methods (decls : list ast.Decl) :
  Forall (fun d => ∃ fd, d = ast.Func fd ∧ ast.Recv fd = None) decls →
  methods decls = [].
Proof.
  induction 1 as [|d l (fd & -> & Hfd) _ IH]; [done|].
  unfold methods in *. simpl. by rewrite Hfd.
Qed.

Section Command.

Context (ParseFile : string → list byte → option (list ast.Decl)).
Context (Sort : sort.SortFn).

(** C7.  When no unit is selected the run prints the no-units message and
    returns nil; it computes no buffer and writes nothing, so the file
    keeps its contents. *)
Theorem C7_no_units (w : os.World) (inputFile : string) src decls :
  os.ReadFile w inputFile = Some src →
  ParseFile inputFile src = Some decls →
  methods decls = [] →
  rewrite newline Sort src decls = Some NoOp
  ∧ ∃ w', run ParseFile Sort w [inputFile] = (w', Return None)
          ∧ os.trace w' = os.trace w ++ [os.Stdout "No methods to reorder
"]
          ∧ os.files w' = os.files w
          ∧ os.ReadFile w' inputFile = Some src.
Proof.
  intros Hr Hp Hm.
  assert (rewrite newline Sort src decls = Some NoOp) as Hrw.
  { unfold rewrite. by rewrite Hm. }
  split; [done|]. eexists. unfold run. rewrite Hr, Hp, Hrw. done.
Qed.

(** C10.  With exactly one unit selected the buffer produced is the input,
    and the run still writes it to the file and reports the reordering. *)
Theorem C10_single_unit (w : os.World) (inputFile : string) src decls m :
  sort.Contract Sort →
  os.ReadFile w inputFile = Some src →
  ParseFile inputFile src = Some decls →
  methods decls = [m] →
  startOff src m ≤ endOff src m →
  inputFile ∉ os.denied w →
  rewrite newline Sort src decls = Some (Rewritten src)
  ∧ ∃ w', run ParseFile Sort w [inputFile] = (w', Return None)
          ∧ os.trace w' = os.trace w
              ++ [os.WriteFile inputFile src;
                  os.Stdout ("Methods reordered in " +:+ inputFile +:+ "
")]
          ∧ os.files w' = os.files w.
Proof.
  intros HSort Hr Hp Hm Hspan Hden.
  assert (∀ less, Sort _ less [m] = [m]) as Hsort1.
  { intros less. apply Permutation_singleton_r, (sort.Sort_perm _ HSort). }
  assert (rewrite newline Sort src decls = Some (Rewritten src)) as Hrw.
  { unfold rewrite. rewrite Hm. simpl.
    unfold newSrc, firstStartOff, lastEndOff, joined, sortedSources,
      posMethods, sortedMethods.
    rewrite !Hsort1. simpl.
    pose proof (Offset_bounds src (start m)).
    pose proof (Offset_bounds src (end_ m)).
    unfold source_of. fold (startOff src m) (endOff src m) in *.
    rewrite (slice_Some src (startOff src m)) by lia. simpl.
    rewrite slice_prefix, slice_suffix by lia. simpl.
    do 2 f_equal. rewrite Z2Nat.inj_sub by lia.
    apply take_mid_drop. lia. }
  split; [done|]. unfold run. rewrite Hr, Hp, Hrw.
  unfold os.do_WriteFile. rewrite bool_decide_eq_false_2 by done.
  eexists. split; [done|]. simpl. split.
  - by rewrite <- app_assoc.
  - by apply insert_id.
Qed.

(** C8.  When no two units have the same name, and the parser finds in
    the buffer of a first run the units of that run where the splice has
    put them ([relocated]), a second run that follows a successful first
    one succeeds, rewrites that buffer into itself, and leaves the file
    with the contents the first run gave it. *)
Theorem C8_idempotent (w w1 : os.World) (inputFile : string) src decls :
  sort.Contract Sort →
  os.ReadFile w inputFile = Some src →
  ParseFile inputFile src = Some decls →
  NoDup (name <$> methods decls) →
  (∀ out1, rewrite newline Sort src decls = Some (Rewritten out1) →
     ∃ decls2, ParseFile inputFile out1 = Some decls2
               ∧ relocated Sort src decls decls2) →
  run ParseFile Sort w [inputFile] = (w1, Return None) →
  (∀ out1, rewrite newline Sort src decls = Some (Rewritten out1) →
     os.ReadFile w1 inputFile = Some out1
     ∧ ∃ decls2, ParseFile inputFile out1 = Some decls2
                 ∧ rewrite newline Sort out1 decls2 = Some (Rewritten out1))
  ∧ ∃ w2, run ParseFile Sort w1 [inputFile] = (w2, Return None)
          ∧ os.files w2 = os.files w1.
Proof.
  intros HSort Hr Hp Hnd Hparse Hrun. unfold run in Hrun.
  rewrite Hr, Hp in Hrun.
  destruct (rewrite newline Sort src decls) as [[|out1]|] eqn:Hrw; [| |done].
  - injection Hrun as <-. split; [done|].
    eexists. unfold run, os.ReadFile in *. simpl. rewrite Hr, Hp, Hrw. done.
  - unfold os.do_WriteFile in Hrun. case_bool_decide as Hden; [done|].
    injection Hrun as <-.
    destruct (Hparse out1 eq_refl) as (decls2 & Hp2 & Hrel).
    pose proof (rewrite_idempotent newline Sort HSort src decls decls2 out1
                  Hrw Hnd Hrel) as Hrw2.
    assert (∀ w', os.files w' = <[inputFile := out1]> (os.files w) →
                  os.ReadFile w' inputFile = Some out1) as Hread.
    { intros w' E. unfold os.ReadFile. rewrite E. apply lookup_insert_eq. }
    split.
    + intros out1' [= <-]. split; [by apply Hread|]. by exists decls2.
    + eexists. unfold run. rewrite Hread by done. rewrite Hp2, Hrw2.
      unfold os.do_WriteFile. simpl. rewrite bool_decide_eq_false_2 by done.
      split; [done|]. simpl. apply insert_insert_eq.
Qed.

End Command.

(** ** The sample file *)

Lemma Sample_methods :
  name <$> methods Sample.decls = ["Zebra"; "Apple"; "Mango"]
  ∧ methods Sample.decls_free = []
  ∧ name <$> methods Sample.decls_one = ["Zebra"].
Proof. by vm_compute. Qed.

Lemma Sample_sources :
  mapM (source_of Sample.src) (methods Sample.decls)
  = Some (String.list_byte_of_string <$>
      ["// Zebra is last.
func (t *T) Zebra() {}"; "func (t *T) Apple() {}"; "func (t *T) Mango() {}"]).
Proof. by vm_compute. Qed.

Lemma Sample_rewrite :
  rewrite newline sort.insertionSort Sample.src Sample.decls
  = Some (Rewritten Sample.out).
Proof. by vm_compute. Qed.

Lemma Sample_spans_ordered :
  spans_ordered Sample.src (methods Sample.decls).
Proof. repeat constructor; by vm_compute. Qed.

Lemma Sample_spans_in_file :
  spans_in_file Sample.src (methods Sample.decls).
Proof. repeat constructor; by vm_compute. Qed.

Lemma Sample_non_overlapping :
  non_overlapping Sample.src (methods Sample.decls).
Proof.
  intros i j a b Hij Ha Hb.
  destruct i as [|[|[|i]]], j as [|[|[|j]]]; try done;
    simplify_eq/=; vm_compute; (by left) || (by right).
Qed.

Lemma Sample_relocated :
  relocated sort.insertionSort Sample.src Sample.decls Sample.out_decls.
Proof.
  exists 60, 61. cbv zeta. split_and!.
  - by vm_compute.
  - lia.
  - vm_compute. by intros k [= <-].
  - by vm_compute.
Qed.

(** The second file: the first unit of the output starts at the comment
    [c], before the place the splice gave it, and the rewrite of the output
    is the output. *)
Lemma Sample_c_relocated :
  rewrite newline sort.insertionSort Sample.src_c Sample.decls_c
  = Some (Rewritten Sample.out_c)
  ∧ relocated sort.insertionSort Sample.src_c Sample.decls_c Sample.out_c_decls
  ∧ rewrite newline sort.insertionSort Sample.out_c Sample.out_c_decls
    = Some (Rewritten Sample.out_c).
Proof.
  split; [by vm_compute|]. split; [|by vm_compute].
  exists 19, 12. cbv zeta. split_and!.
  - by vm_compute.
  - lia.
  - vm_compute. by intros k [= <-].
  - by vm_compute.
Qed.

Lemma Sample_run :
  run Sample.ParseFile sort.insertionSort Sample.world [Sample.path]
  = ({| os.files := {[ Sample.path := Sample.out ]};
        os.denied := ∅;
        os.trace := [os.WriteFile Sample.path Sample.out;
                     os.Stdout "Methods reordered in t.go
"] |},
     Return None).
Proof. by vm_compute. Qed.

(** ** The theorems at the sample file, with Go's insertion sort *)

Lemma C2_splice_frame_witness :
  sort.Contract sort.insertionSort
  ∧ methods Sample.decls ≠ []
  ∧ spans_ordered Sample.src (methods Sample.decls)
  ∧ ∃ firstStart lastEnd joinedText buf,
      firstStartOff sort.insertionSort Sample.src (methods Sample.decls)
        = Some firstStart
      ∧ lastEndOff sort.insertionSort Sample.src (methods Sample.decls)
        = Some lastEnd
      ∧ joined newline sort.insertionSort Sample.src (methods Sample.decls)
        = Some joinedText
      ∧ rewrite newline sort.insertionSort Sample.src Sample.decls
        = Some (Rewritten buf)
      ∧ buf = take (Z.to_nat firstStart) Sample.src ++ joinedText
              ++ drop (Z.to_nat lastEnd) Sample.src
      ∧ (∀ i : nat, (i < Z.to_nat firstStart)%nat →
           buf !! i = Sample.src !! i)
      ∧ (∀ i : nat, (Z.to_nat lastEnd ≤ i)%nat →
           buf !! (Z.to_nat firstStart + length joinedText
                   + (i - Z.to_nat lastEnd))%nat = Sample.src !! i).
Proof.
  split; [exact insertionSort_Contract|].
  split; [by vm_compute|].
  split; [repeat constructor; by vm_compute|].
  apply (C2_splice_frame newline sort.insertionSort insertionSort_Contract
           Sample.src Sample.decls).
  - by vm_compute.
  - repeat constructor; by vm_compute.
Defined.

Lemma C3_sorted_by_name_witness :
  sort.Contract sort.insertionSort
  ∧ methods Sample.decls ≠ []
  ∧ spans_ordered Sample.src (methods Sample.decls)
  ∧ ∃ units texts before after,
      units ≡ₚ methods Sample.decls
      ∧ Forall2 (fun m t => source_of Sample.src m = Some t) units texts
      ∧ rewrite newline sort.insertionSort Sample.src Sample.decls
        = Some (Rewritten (before ++ blank_line_separated newline texts ++ after))
      ∧ ∀ (i : nat) a b, units !! i = Some a → units !! S i = Some b →
          String.leb (name a) (name b) = true.
Proof.
  split; [exact insertionSort_Contract|].
  split; [by vm_compute|].
  split; [repeat constructor; by vm_compute|].
  apply (C3_sorted_by_name newline sort.insertionSort insertionSort_Contract
           Sample.src Sample.decls).
  - by vm_compute.
  - repeat constructor; by vm_compute.
Defined.

Lemma C4_separator_witness :
  sort.Contract sort.insertionSort
  ∧ methods Sample.decls ≠ []
  ∧ spans_ordered Sample.src (methods Sample.decls)
  ∧ ∃ firstStart lastEnd texts,
      firstStartOff sort.insertionSort Sample.src (methods Sample.decls)
        = Some firstStart
      ∧ lastEndOff sort.insertionSort Sample.src (methods Sample.decls)
        = Some lastEnd
      ∧ rewrite newline sort.insertionSort Sample.src Sample.decls
        = Some (Rewritten (take (Z.to_nat firstStart) Sample.src
                           ++ blank_line_separated newline texts
                           ++ drop (Z.to_nat lastEnd) Sample.src))
      ∧ Forall2 (fun m t =>
                   len t = endOff Sample.src m - startOff Sample.src m
                   ∧ ∀ k : nat, (k < length t)%nat →
                       t !! k
                       = Sample.src !! (Z.to_nat (startOff Sample.src m) + k)%nat)
                (sortedMethods sort.insertionSort (methods Sample.decls)) texts.
Proof.
  split; [exact insertionSort_Contract|].
  split; [by vm_compute|].
  split; [repeat constructor; by vm_compute|].
  apply (C4_separator newline sort.insertionSort insertionSort_Contract
           Sample.src Sample.decls).
  - by vm_compute.
  - repeat constructor; by vm_compute.
Defined.

(** The unit of [Zebra], which has a doc comment. *)
Lemma C5_span_offsets_witness :
  let m := {| decl := {| ast.Doc := Some {| ast.CommentGroup_Pos := 61 |};
                         ast.Recv := Sample.recv_t;
                         ast.FuncDecl_Name := {| ast.Name := "Zebra" |};
                         ast.FuncDecl_Pos := 79;
                         ast.FuncDecl_End := 101 |};
              start := 61; end_ := 101 |} in
  m ∈ methods Sample.decls
  ∧ ast.Func (decl m) ∈ Sample.decls
  ∧ startOff Sample.src m = token.Offset (fSet Sample.src) 61
  ∧ endOff Sample.src m = token.Offset (fSet Sample.src) 101.
Proof.
  intros m.
  assert (m ∈ methods Sample.decls) as Hm by (vm_compute; by left).
  split; [exact Hm|].
  exact (C5_span_offsets Sample.src Sample.decls m Hm).
Defined.

Lemma C6_region_replaced_witness :
  sort.Contract sort.insertionSort
  ∧ methods Sample.decls ≠ []
  ∧ spans_ordered Sample.src (methods Sample.decls)
  ∧ ∃ firstStart lastEnd tbuf,
      firstStartOff sort.insertionSort Sample.src (methods Sample.decls)
        = Some firstStart
      ∧ lastEndOff sort.insertionSort Sample.src (methods Sample.decls)
        = Some lastEnd
      ∧ rewrite (None, newline) sort.insertionSort (tagged Sample.src) Sample.decls
        = Some (Rewritten tbuf)
      ∧ rewrite newline sort.insertionSort Sample.src Sample.decls
        = Some (Rewritten (snd <$> tbuf))
      ∧ (∀ (i : nat) b, (Some i, b) ∈ tbuf →
           Z.of_nat i < firstStart ∨ lastEnd ≤ Z.of_nat i
           ∨ ∃ m, m ∈ methods Sample.decls
                  ∧ startOff Sample.src m ≤ Z.of_nat i < endOff Sample.src m)
      ∧ ∀ d, d ∈ Sample.decls → method_of d = None →
          firstStart ≤ token.Offset (fSet Sample.src) (ast.Decl_Pos d) →
          token.Offset (fSet Sample.src) (ast.Decl_End d) ≤ lastEnd →
          (∀ m, m ∈ methods Sample.decls →
             endOff Sample.src m ≤ token.Offset (fSet Sample.src) (ast.Decl_Pos d)
             ∨ token.Offset (fSet Sample.src) (ast.Decl_End d)
               ≤ startOff Sample.src m) →
          ∀ (i : nat) b,
            token.Offset (fSet Sample.src) (ast.Decl_Pos d) ≤ Z.of_nat i
              < token.Offset (fSet Sample.src) (ast.Decl_End d) →
            (Some i, b) ∉ tbuf.
Proof.
  split; [exact insertionSort_Contract|].
  split; [by vm_compute|].
  split; [repeat constructor; by vm_compute|].
  apply (C6_region_replaced newline sort.insertionSort insertionSort_Contract
           Sample.src Sample.decls).
  - by vm_compute.
  - repeat constructor; by vm_compute.
Defined.

(** The file with its free functions only. *)
Lemma C7_no_units_witness :
  let ParseFile := fun (_ : string) (_ : list byte) => Some Sample.decls_free in
  os.ReadFile Sample.world Sample.path = Some Sample.src
  ∧ ParseFile Sample.path Sample.src = Some Sample.decls_free
  ∧ methods Sample.decls_free = []
  ∧ rewrite newline sort.insertionSort Sample.src Sample.decls_free = Some NoOp
  ∧ ∃ w', run ParseFile sort.insertionSort Sample.world [Sample.path]
          = (w', Return None)
          ∧ os.trace w' = os.trace Sample.world ++ [os.Stdout "No methods to reorder
"]
          ∧ os.files w' = os.files Sample.world
          ∧ os.ReadFile w' Sample.path = Some Sample.src.
Proof.
  intros ParseFile.
  split; [by vm_compute|]. split; [done|]. split; [by vm_compute|].
  apply (C7_no_units ParseFile sort.insertionSort Sample.world Sample.path
           Sample.src Sample.decls_free).
  - by vm_compute.
  - done.
  - by vm_compute.
Defined.

Lemma C8_idempotent_witness :
  let w1 := {| os.files := {[ Sample.path := Sample.out ]};
               os.denied := ∅;
               os.trace := [os.WriteFile Sample.path Sample.out;
                            os.Stdout "Methods reordered in t.go
"] |} in
  sort.Contract sort.insertionSort
  ∧ os.ReadFile Sample.world Sample.path = Some Sample.src
  ∧ Sample.ParseFile Sample.path Sample.src = Some Sample.decls
  ∧ NoDup (name <$> methods Sample.decls)
  ∧ (∀ out1, rewrite newline sort.insertionSort Sample.src Sample.decls
             = Some (Rewritten out1) →
       ∃ decls2, Sample.ParseFile Sample.path out1 = Some decls2
                 ∧ relocated sort.insertionSort Sample.src Sample.decls decls2)
  ∧ run Sample.ParseFile sort.insertionSort Sample.world [Sample.path]
    = (w1, Return None)
  ∧ (∀ out1, rewrite newline sort.insertionSort Sample.src Sample.decls
             = Some (Rewritten out1) →
       os.ReadFile w1 Sample.path = Some out1
       ∧ ∃ decls2, Sample.ParseFile Sample.path out1 = Some decls2
                   ∧ rewrite newline sort.insertionSort out1 decls2
                     = Some (Rewritten out1))
  ∧ ∃ w2, run Sample.ParseFile sort.insertionSort w1 [Sample.path]
          = (w2, Return None)
          ∧ os.files w2 = os.files w1.
Proof.
  intros w1.
  assert (NoDup (name <$> methods Sample.decls)) as Hnd.
  { vm_compute. repeat constructor; rewrite ?elem_of_cons, ?elem_of_nil;
      intros H; repeat destruct H as [H|H]; done. }
  assert (∀ out1, rewrite newline sort.insertionSort Sample.src Sample.decls
                  = Some (Rewritten out1) →
            ∃ decls2, Sample.ParseFile Sample.path out1 = Some decls2
                      ∧ relocated sort.insertionSort Sample.src Sample.decls
                          decls2) as Hparse.
  { intros out1 H.
    assert (out1 = Sample.out) as -> by (vm_compute in H; by injection H).
    exists Sample.out_decls. split; [by vm_compute|].
    exists 60, 61. cbv zeta. split_and!.
    - by vm_compute.
    - lia.
    - vm_compute. by intros k [= <-].
    - by vm_compute. }
  assert (run Sample.ParseFile sort.insertionSort Sample.world [Sample.path]
          = (w1, Return None)) as Hrun by by vm_compute.
  split; [exact insertionSort_Contract|].
  split; [by vm_compute|]. split; [by vm_compute|].
  split; [exact Hnd|]. split; [exact Hparse|]. split; [exact Hrun|].
  apply (C8_idempotent Sample.ParseFile sort.insertionSort Sample.world w1
           Sample.path Sample.src Sample.decls insertionSort_Contract);
    [by vm_compute|by vm_compute|exact Hnd|exact Hparse|exact Hrun].
Defined.

Lemma C9_splice_bounds_witness :
  sort.Contract sort.insertionSort
  ∧ methods Sample.decls ≠ []
  ∧ spans_in_file Sample.src (methods Sample.decls)
  ∧ non_overlapping Sample.src (methods Sample.decls)
  ∧ ∃ firstStart lastEnd,
      firstStartOff sort.insertionSort Sample.src (methods Sample.decls)
        = Some firstStart
      ∧ lastEndOff sort.insertionSort Sample.src (methods Sample.decls)
        = Some lastEnd
      ∧ is_min firstStart (startOff Sample.src <$> methods Sample.decls)
      ∧ is_max lastEnd (endOff Sample.src <$> methods Sample.decls).
Proof.
  split; [exact insertionSort_Contract|].
  split; [by vm_compute|].
  split; [repeat constructor; by vm_compute|].
  split; [exact Sample_non_overlapping|].
  apply (C9_splice_bounds sort.insertionSort insertionSort_Contract
           Sample.src Sample.decls).
  - by vm_compute.
  - repeat constructor; by vm_compute.
  - exact Sample_non_overlapping.
Defined.

(** The file parsed without its last two methods. *)
Lemma C10_single_unit_witness :
  let ParseFile := fun (_ : string) (_ : list byte) => Some Sample.decls_one in
  let m := {| decl := {| ast.Doc := Some {| ast.CommentGroup_Pos := 61 |};
                         ast.Recv := Sample.recv_t;
                         ast.FuncDecl_Name := {| ast.Name := "Zebra" |};
                         ast.FuncDecl_Pos := 79;
                         ast.FuncDecl_End := 101 |};
              start := 61; end_ := 101 |} in
  sort.Contract sort.insertionSort
  ∧ os.ReadFile Sample.world Sample.path = Some Sample.src
  ∧ ParseFile Sample.path Sample.src = Some Sample.decls_one
  ∧ methods Sample.decls_one = [m]
  ∧ startOff Sample.src m ≤ endOff Sample.src m
  ∧ (Sample.path ∉ os.denied Sample.world)
  ∧ rewrite newline sort.insertionSort Sample.src Sample.decls_one
    = Some (Rewritten Sample.src)
  ∧ ∃ w', run ParseFile sort.insertionSort Sample.world [Sample.path]
          = (w', Return None)
          ∧ os.trace w' = os.trace Sample.world
              ++ [os.WriteFile Sample.path Sample.src;
                  os.Stdout ("Methods reordered in " +:+ Sample.path +:+ "
")]
          ∧ os.files w' = os.files Sample.world.
Proof.
  intros ParseFile m.
  split; [exact insertionSort_Contract|].
  split; [by vm_compute|]. split; [done|]. split; [by vm_compute|].
  split; [by vm_compute|]. split; [simpl; set_solver|].
  apply (C10_single_unit ParseFile sort.insertionSort Sample.world Sample.path
           Sample.src Sample.decls_one m insertionSort_Contract).
  - by vm_compute.
  - done.
  - by vm_compute.
  - by vm_compute.
  - simpl. set_solver.
Defined.

(** * More of cmd/root.go *)

(** ** What [run] does to the world *)

Section RunEffects.

Context (ParseFile : string → list byte → option (list ast.Decl)).
Context (Sort : sort.SortFn).

(** X1.  A run touches no file but its input file: every other path keeps
    its contents, the permissions stay, the trace only grows, and a write
    in the new part of the trace is a write of the input file. *)
Theorem run_touches_only_inputFile (w : os.World) (inputFile : string)
    (rest : list string) :
  let w' := (run ParseFile Sort w (inputFile :: rest)).1 in
  (∀ p, p ≠ inputFile → os.files w' !! p = os.files w !! p)
  ∧ os.denied w' = os.denied w
  ∧ ∃ new, os.trace w' = os.trace w ++ new
           ∧ ∀ name data, os.WriteFile name data ∈ new → name = inputFile.
Proof.
  simpl. unfold os.do_WriteFile.
  assert (∃ new : list os.Event, os.trace w = os.trace w ++ new
            ∧ ∀ name data, os.WriteFile name data ∈ new → name = inputFile)
    as Hnone.
  { exists []. split; [by rewrite app_nil_r|]. by intros ? ? ?%not_elem_of_nil. }
  destruct (os.ReadFile w inputFile) as [src|]; [|done].
  destruct (ParseFile inputFile src) as [decls|]; [|done].
  destruct (rewrite newline Sort src decls) as [[|buf]|]; [| |done].
  - simpl. split_and!; [done..|]. eexists. split; [done|].
    intros name data Hin. apply list_elem_of_singleton in Hin. done.
  - case_bool_decide; [done|]. simpl. split_and!; [|done|].
    + intros p Hp. by rewrite lookup_insert_ne.
    + eexists. split; [by rewrite <- app_assoc|].
      intros name data Hin. simpl in Hin.
      rewrite !elem_of_cons in Hin.
      destruct Hin as [Hin|[Hin|Hin%not_elem_of_nil]]; [|done..].
      by injection Hin.
Qed.


(** X3.  A run returns nil in two ways only.  Either nothing was selected:
    the file is as it was and the no-methods message is all that was
    printed.  Or a buffer was computed and written: the file holds that
    buffer, and the report is printed after the write. *)
Theorem run_success (w w' : os.World) (inputFile : string) (rest : list string) :
  run ParseFile Sort w (inputFile :: rest) = (w', Return None) →
  ∃ src decls,
    os.ReadFile w inputFile = Some src
    ∧ ParseFile inputFile src = Some decls
    ∧ ((methods decls = []
        ∧ os.files w' = os.files w
        ∧ os.trace w' = os.trace w ++ [os.Stdout "No methods to reorder
"])
       ∨ (∃ buf, rewrite newline Sort src decls = Some (Rewritten buf)
                 ∧ methods decls ≠ []
                 ∧ (inputFile ∉ os.denied w)
                 ∧ os.ReadFile w' inputFile = Some buf
                 ∧ os.trace w' = os.trace w
                     ++ [os.WriteFile inputFile buf;
                         os.Stdout ("Methods reordered in " +:+ inputFile +:+ "
")])).
Proof.
  unfold run. destruct (os.ReadFile w inputFile) as [src|] eqn:Hr; [|done].
  destruct (ParseFile inputFile src) as [decls|] eqn:Hp; [|done].
  destruct (rewrite newline Sort src decls) as [[|buf]|] eqn:Hrw; [| |done].
  - intros [= <-]. exists src, decls. split_and!; [done..|]. left.
    split_and!; [|done..]. unfold rewrite in Hrw.
    case_bool_decide as Hlen; [|by destruct (newSrc _ _ _ _)].
    by apply nil_length_inv.
  - unfold os.do_WriteFile. case_bool_decide as Hden; [done|].
    intros [= <-]. exists src, decls. split_and!; [done..|]. right.
    exists buf. split_and!; [done| |done|..].
    + intros E. unfold rewrite in Hrw. by rewrite E in Hrw.
    + unfold os.ReadFile. simpl. apply lookup_insert_eq.
    + simpl. by rewrite <- app_assoc.
Qed.


End RunEffects.


Lemma run_success_witness :
  let w' := {| os.files := {[ Sample.path := Sample.out ]};
               os.denied := ∅;
               os.trace := [os.WriteFile Sample.path Sample.out;
                            os.Stdout "Methods reordered in t.go
"] |} in
  run Sample.ParseFile sort.insertionSort Sample.world [Sample.path]
    = (w', Return None)
  ∧ ∃ src decls,
    os.ReadFile Sample.world Sample.path = Some src
    ∧ Sample.ParseFile Sample.path src = Some decls
    ∧ ((methods decls = []
        ∧ os.files w' = os.files Sample.world
        ∧ os.trace w' = os.trace Sample.world ++ [os.Stdout "No methods to reorder
"])
       ∨ (∃ buf, rewrite newline sort.insertionSort src decls
                 = Some (Rewritten buf)
                 ∧ methods decls ≠ []
                 ∧ (Sample.path ∉ os.denied Sample.world)
                 ∧ os.ReadFile w' Sample.path = Some buf
                 ∧ os.trace w' = os.trace Sample.world
                     ++ [os.WriteFile Sample.path buf;
                         os.Stdout ("Methods reordered in " +:+ Sample.path +:+ "
")])).
Proof.
  intros w'.
  assert (run Sample.ParseFile sort.insertionSort Sample.world [Sample.path]
          = (w', Return None)) as H by (by vm_compute).
  split; [exact H|].
  exact (run_success Sample.ParseFile sort.insertionSort Sample.world w'
           Sample.path [] H).
Defined.

(** ** The splice: panics, length, and the part of the sort *)

Lemma spans_length_perm {B} (src : list B) (ms ms' : list Method) :
  ms ≡ₚ ms' → spans_length src ms = spans_length src ms'.
Proof.
  unfold spans_length. induction 1; csimpl; lia.
Qed.

Lemma blank_line_separated_length {B} (nl : B) (texts : list (list B)) :
  texts ≠ [] →
  len (blank_line_separated nl texts)
  = foldr Z.add 0 (len <$> texts) + 2 * (Z.of_nat (length texts) - 1).
Proof.
  induction texts as [|t texts IH]; [done|]. intros _.
  rewrite blank_line_separated_cons, len_app. destruct texts as [|u texts].
  - csimpl. unfold len. simpl. lia.
  - rewrite len_app, IH by done. csimpl. unfold len. simpl. lia.
Qed.

Section MoreSplice.

Context {B : Type} (nl : B).
Context (Sort : sort.SortFn) (HSort : sort.Contract Sort).
Implicit Types (src : list B) (ms : list Method) (m : Method).

(** X5.  The splice panics exactly when some selected unit ends before it
    starts: no other slice or index of [run] can be out of range. *)
Theorem rewrite_panics_iff src decls :
  rewrite nl Sort src decls = None
  ↔ ∃ m, m ∈ methods decls ∧ endOff src m < startOff src m.
Proof.
  split.
  - intros Hnone.
    destruct (decide (methods decls = [])) as [E|Hne].
    { unfold rewrite in Hnone. by rewrite E in Hnone. }
    destruct (decide (Forall (fun m => startOff src m ≤ endOff src m)
                        (methods decls))) as [Hs|Hs].
    + destruct (newSrc_Some nl Sort HSort src _ Hne Hs)
        as (? & ? & ? & _ & _ & _ & Hn).
      rewrite rewrite_Rewritten, Hn in Hnone by done. done.
    + apply not_Forall_Exists in Hs; [|apply _].
      apply Exists_exists in Hs as (m & Hm & Hbad). exists m.
      split; [done|]. simpl in Hbad. lia.
  - intros (m & Hm & Hbad).
    assert (methods decls ≠ []) as Hne.
    { intros E. rewrite E in Hm. by apply not_elem_of_nil in Hm. }
    rewrite rewrite_Rewritten by done.
    destruct (posMethods_head_last Sort HSort _ Hne)
      as (first & last_ & Hh & Hl & _).
    unfold newSrc, firstStartOff, lastEndOff, joined, sortedSources.
    rewrite Hh, Hl. simpl.
    rewrite (mapM_None_2 (source_of src)); [done|].
    apply Exists_exists. exists m. split.
    + by rewrite (sortedMethods_perm Sort HSort).
    + unfold source_of, slice. rewrite bool_decide_eq_false_2; [done|]. lia.
Qed.

(** The length of the buffer produced, from the first and the last unit
    by position. *)
Lemma rewrite_len src decls buf :
  rewrite nl Sort src decls = Some (Rewritten buf) →
  ∃ first last_,
    head (posMethods Sort (methods decls)) = Some first
    ∧ last (posMethods Sort (methods decls)) = Some last_
    ∧ len buf = startOff src first + spans_length src (methods decls)
                + 2 * (Z.of_nat (length (methods decls)) - 1)
                + (len src - endOff src last_).
Proof.
  intros Hrw. unfold rewrite in Hrw. case_bool_decide as Hlen; [done|].
  destruct (newSrc nl Sort src (methods decls)) as [out|] eqn:Hn; [|done].
  injection Hrw as ->.
  apply (newSrc_inv nl Sort) in Hn as (first & last_ & texts & Hh & Hl & HF & ->).
  exists first, last_. split_and!; [done..|].
  pose proof (sortedMethods_perm Sort HSort (methods decls)) as Hp.
  rewrite <- (spans_length_perm src _ _ Hp).
  rewrite <- (Permutation_length Hp).
  assert (sortedMethods Sort (methods decls) ≠ []) as Hne.
  { intros E. apply Hlen. by rewrite <- (Permutation_length Hp), E. }
  assert (texts ≠ []) as Hte.
  { intros ->. by apply Forall2_nil_inv_r in HF. }
  rewrite !len_app, blank_line_separated_length by done.
  rewrite <- (Forall2_length _ _ _ HF).
  assert (foldr Z.add 0 (len <$> texts)
          = spans_length src (sortedMethods Sort (methods decls))) as ->.
  { clear -HF. unfold spans_length.
    induction HF as [|m t ms ts Hm _ IH]; [done|]. csimpl.
    by rewrite IH, (slice_length _ _ _ _ Hm). }
  pose proof (Offset_bounds src (start first)).
  pose proof (Offset_bounds src (end_ last_)).
  unfold len, startOff, endOff in *. rewrite length_take, length_drop. lia.
Qed.

(** X6.  The buffer produced is as long as the text before the block, the
    spans of the units, two newlines between consecutive units and the
    text after the block. *)
Theorem rewrite_length src decls buf :
  rewrite nl Sort src decls = Some (Rewritten buf) →
  ∃ firstStart lastEnd,
    firstStartOff Sort src (methods decls) = Some firstStart
    ∧ lastEndOff Sort src (methods decls) = Some lastEnd
    ∧ len buf = firstStart + spans_length src (methods decls)
                + 2 * (Z.of_nat (length (methods decls)) - 1)
                + (len src - lastEnd).
Proof.
  intros (first & last_ & Hh & Hl & Hlen)%rewrite_len.
  exists (startOff src first), (endOff src last_). split_and!; [| |done].
  - unfold firstStartOff. by rewrite Hh.
  - unfold lastEndOff. by rewrite Hl.
Qed.

(** X7.  When no two units share a name or a start position, the outcome
    does not depend on which sort is used, as long as it sorts. *)
Theorem rewrite_sort_independent (Sort' : sort.SortFn) src decls :
  sort.Contract Sort' →
  NoDup (name <$> methods decls) →
  NoDup (start <$> methods decls) →
  rewrite nl Sort src decls = rewrite nl Sort' src decls.
Proof.
  intros HSort' Hnames Hstarts. set (ms := methods decls) in *.
  assert (sortedMethods Sort ms = sortedMethods Sort' ms) as Hs.
  { apply (sorted_by_key_unique name String.ltb).
    - apply String_ltb_total.
    - by rewrite (sortedMethods_perm Sort' HSort').
    - apply (sort.Sort_sorted _ HSort _ ByName_Less), ByName_StrictWeak.
    - apply (sort.Sort_sorted _ HSort' _ ByName_Less), ByName_StrictWeak.
    - by rewrite (sortedMethods_perm Sort HSort),
        (sortedMethods_perm Sort' HSort'). }
  assert (posMethods Sort ms = posMethods Sort' ms) as Hp.
  { apply (sorted_by_key_unique start Z.ltb).
    - apply Z_ltb_total.
    - by rewrite (posMethods_perm Sort' HSort').
    - apply (sort.Sort_sorted _ HSort _ ByPos_Less), ByPos_StrictWeak.
    - apply (sort.Sort_sorted _ HSort' _ ByPos_Less), ByPos_StrictWeak.
    - by rewrite (posMethods_perm Sort HSort), (posMethods_perm Sort' HSort'). }
  unfold rewrite, newSrc, firstStartOff, lastEndOff, joined, sortedSources.
  fold ms. by rewrite Hs, Hp.
Qed.

End MoreSplice.

(** ** A block already in order is left alone *)

Lemma StronglySorted_irrefl_NoDup {A K} (f : A → K) (R : K → K → Prop)
    (l : list A) :
  (∀ k, ¬ R k k) →
  StronglySorted (fun a b => R (f a) (f b)) l → NoDup (f <$> l).
Proof.
  intros Hirr. induction 1 as [|x l Hl IH Hx]; csimpl; constructor; [|done].
  intros (y & E & Hy)%list_elem_of_fmap. rewrite Forall_forall in Hx.
  specialize (Hx y Hy). simpl in Hx. rewrite <- E in Hx. by apply Hirr in Hx.
Qed.

Lemma String_ltb_trans (a b c : string) :
  String.ltb a b = true → String.ltb b c = true → String.ltb a c = true.
Proof.
  unfold String.ltb. intros H1 H2.
  destruct (String.compare a b) eqn:E1; try done.
  destruct (String.compare b c) eqn:E2; try done.
  by rewrite (String_compare_Lt_trans _ _ _ E1 E2).
Qed.

Lemma slice_slice {B} (s : list B) (a b c : Z) (x y : list B) :
  slice s a b = Some x → slice s b c = Some y → slice s a c = Some (x ++ y).
Proof.
  intros (? & ? & ? & ->)%slice_is_Some (? & ? & ? & ->)%slice_is_Some.
  rewrite slice_Some by lia. f_equal.
  replace (Z.to_nat (c - a)) with (Z.to_nat (b - a) + Z.to_nat (c - b))%nat
    by lia.
  rewrite <- take_take_drop. f_equal. rewrite drop_drop. do 2 f_equal. lia.
Qed.

Section Packed.

Context {B : Type} (nl : B).
Implicit Types (src : list B) (ms : list Method) (m : Method).

Lemma packed_sorted src ms :
  Forall (fun m => 1 ≤ start m ≤ 1 + len src
                   ∧ startOff src m ≤ endOff src m) ms →
  packed nl src ms →
  StronglySorted (fun a b => ByName_Less b a = false) ms
  ∧ StronglySorted (fun a b => start a < start b) ms.
Proof.
  intros Hin Hp.
  assert (Sorted (fun a b => ByName_Less b a = false ∧ start a < start b) ms)
    as Hs.
  { induction ms as [|a ms IH]; [constructor|].
    destruct Hp as [Hab Hp]. apply Forall_cons in Hin as [Ha Hin].
    constructor; [by apply IH|]. destruct ms as [|b ms]; constructor.
    destruct Hab as [Hle Hgap]. split.
    { unfold ByName_Less. rewrite String_leb_ltb in Hle.
      by destruct (String.ltb (name b) (name a)). }
    apply Forall_cons in Hin as [[Hb1 _] _]. destruct Ha as [Ha1 Ha2].
    pose proof (slice_length _ _ _ _ Hgap) as Hlen.
    unfold len in Hlen. simpl in Hlen. unfold startOff in *.
    rewrite (Offset_in_file src (start a)) in Ha2 by done.
    rewrite (Offset_in_file src (start b)) in Hlen by done. lia. }
  apply Sorted_StronglySorted in Hs.
  - split; (eapply (StronglySorted_fmap id) in Hs;
            [rewrite list_fmap_id in Hs; exact Hs|]); by intros ? ? [? ?].
  - intros a b c [H1 H2] [H3 H4]. split; [|lia].
    by apply (sort.less_negtrans _ ByName_StrictWeak a b c).
Qed.

(** The texts of a packed block, joined with blank lines, are the bytes
    from the start of its first unit to the end of its last. *)
Lemma packed_join src ms (texts : list (list B)) :
  packed nl src ms →
  Forall2 (fun m t => source_of src m = Some t) ms texts →
  ∀ first last_, head ms = Some first → last ms = Some last_ →
    slice src (startOff src first) (endOff src last_)
    = Some (blank_line_separated nl texts).
Proof.
  intros Hp HF. induction HF as [|a t ms texts Ha HF IH];
    intros first last_ Hh Hl; [done|].
  injection Hh as <-. destruct Hp as [Hab Hp].
  rewrite blank_line_separated_cons.
  destruct HF as [|b u ms texts Hb HF].
  - injection Hl as <-. by rewrite app_nil_r.
  - destruct Hab as [_ Hgap].
    specialize (IH Hp b last_ eq_refl Hl).
    apply (slice_slice _ _ _ _ _ _ Ha).
    apply (slice_slice _ _ _ _ _ _ Hgap IH).
Qed.

End Packed.

Section FixedPoint.

Context {B : Type} (nl : B).
Context (Sort : sort.SortFn) (HSort : sort.Contract Sort).
Implicit Types (src : list B) (ms : list Method) (m : Method).

(** A packed block that both sorts leave in place is rewritten into the
    source. *)
Lemma rewrite_of_sorted src decls :
  methods decls ≠ [] →
  Forall (fun m => 1 ≤ start m ≤ 1 + len src
                   ∧ startOff src m ≤ endOff src m) (methods decls) →
  packed nl src (methods decls) →
  sortedMethods Sort (methods decls) = methods decls →
  posMethods Sort (methods decls) = methods decls →
  rewrite nl Sort src decls = Some (Rewritten src).
Proof.
  intros Hne Hin Hp Hs Hpos. set (ms := methods decls) in *.
  assert (spans_ordered src ms) as Hord.
  { eapply Forall_impl; [exact Hin|]. by intros m [_ ?]. }
  destruct (newSrc_Some nl Sort HSort src ms Hne Hord)
    as (first & last_ & texts & Hh & Hl & Ht & Hn).
  destruct (sortedSources_Some Sort HSort src ms Hord) as (texts' & Ht' & HF).
  rewrite Ht in Ht'. injection Ht' as <-.
  rewrite Hpos in Hh, Hl. rewrite Hs in HF.
  pose proof (packed_join nl src ms texts Hp HF first last_ Hh Hl) as Hmid.
  rewrite rewrite_Rewritten by done. fold ms.
  rewrite Hn, Join_blank_line_separated.
  apply slice_is_Some in Hmid as (? & ? & ? & ->).
  rewrite Z2Nat.inj_sub, take_mid_drop by lia. done.
Qed.

(** X8.  When the units, in the order of the declarations, already have
    ascending and distinct names and stand exactly two newlines apart, the
    buffer produced is the source itself, whatever lies before, after or
    inside the units. *)
Theorem rewrite_fixed_point src decls :
  methods decls ≠ [] →
  Forall (fun m => 1 ≤ start m ≤ 1 + len src
                   ∧ startOff src m ≤ endOff src m) (methods decls) →
  NoDup (name <$> methods decls) →
  packed nl src (methods decls) →
  rewrite nl Sort src decls = Some (Rewritten src).
Proof.
  intros Hne Hin Hnd Hp.
  destruct (packed_sorted nl src _ Hin Hp) as [Hnames Hstarts].
  apply (rewrite_of_sorted src decls Hne Hin Hp).
  - apply (sorted_by_key_unique name String.ltb).
    + apply String_ltb_total.
    + done.
    + apply (sort.Sort_sorted _ HSort _ ByName_Less), ByName_StrictWeak.
    + done.
    + apply (sortedMethods_perm Sort HSort).
  - apply (sorted_by_key_unique start Z.ltb).
    + apply Z_ltb_total.
    + by apply StronglySorted_lt_NoDup.
    + apply (sort.Sort_sorted _ HSort _ ByPos_Less), ByPos_StrictWeak.
    + eapply (StronglySorted_fmap id) in Hstarts;
        [rewrite list_fmap_id in Hstarts; exact Hstarts|].
      intros a b Hab. simpl. apply Z.ltb_ge. lia.
    + apply (posMethods_perm Sort HSort).
Qed.

End FixedPoint.

(** ** Names that repeat, under the insertion sort *)

(** The insertion sort leaves a sorted slice as it is. *)
Lemma insertionSort_sorted_id {A} (less : A → A → bool) (l : list A) :
  StronglySorted (fun a b => less b a = false) l →
  sort.insertionSort A less l = l.
Proof.
  intros Hs. unfold sort.insertionSort.
  assert (∀ acc, StronglySorted (fun a b => less b a = false) (reverse acc ++ l) →
            foldl (fun before x => sort.sink less x before) acc l
            = reverse l ++ acc) as Hf.
  { clear Hs. induction l as [|x l IH]; intros acc Hs; [done|]. simpl.
    assert (sort.sink less x acc = x :: acc) as ->.
    { destruct acc as [|y acc]; [done|]. simpl.
      rewrite (StronglySorted_app_1_elem_of _ _ _ y x Hs); [done| |by left].
      rewrite reverse_cons. apply elem_of_app. right. by left. }
    rewrite IH.
    - by rewrite reverse_cons, <- app_assoc.
    - by rewrite reverse_cons, <- app_assoc. }
  rewrite Hf by done. by rewrite app_nil_r, reverse_involutive.
Qed.

(** X9.  With Go's insertion sort (the sort of a slice of at most 12
    elements) the names need not be distinct: a block whose units are in
    ascending name order, two newlines apart, is rewritten into the source
    itself even when names repeat. *)
Theorem rewrite_fixed_point_insertionSort {B} (nl : B) (src : list B)
    (decls : list ast.Decl) :
  methods decls ≠ [] →
  Forall (fun m => 1 ≤ start m ≤ 1 + len src
                   ∧ startOff src m ≤ endOff src m) (methods decls) →
  packed nl src (methods decls) →
  rewrite nl sort.insertionSort src decls = Some (Rewritten src).
Proof.
  intros Hne Hin Hp.
  destruct (packed_sorted nl src _ Hin Hp) as [Hnames Hstarts].
  assert (sortedMethods sort.insertionSort (methods decls) = methods decls)
    as Hs by by apply insertionSort_sorted_id.
  apply (rewrite_of_sorted nl sort.insertionSort insertionSort_Contract
           src decls Hne Hin Hp Hs).
  unfold posMethods. rewrite Hs. apply insertionSort_sorted_id.
  eapply (StronglySorted_fmap id) in Hstarts;
    [rewrite list_fmap_id in Hstarts; exact Hstarts|].
  intros a b Hab. unfold ByPos_Less. simpl. apply Z.ltb_ge. lia.
Qed.

(** ** Which bytes of the source are in the output *)

Lemma elem_of_Join_2 {B} (x : B) (texts : list (list B)) (sep t : list B) :
  t ∈ texts → x ∈ t → x ∈ strings.Join texts sep.
Proof.
  intros Ht Hx. destruct texts as [|t0 rest]; [by apply not_elem_of_nil in Ht|].
  assert (x ∈ t0 ++ concat (map (fun s => sep ++ s) rest)) as H.
  { apply elem_of_cons in Ht as [->|Ht]; [apply elem_of_app; by left|].
    apply elem_of_app. right. clear t0.
    induction rest as [|u rest IH]; [by apply not_elem_of_nil in Ht|].
    simpl. rewrite !elem_of_app.
    apply elem_of_cons in Ht as [->|Ht]; [by left; right|right; by apply IH]. }
  simpl. destruct rest; [|done]. simpl in H. by rewrite app_nil_r in H.
Qed.

Lemma tagged_lookup_Some {B} (src : list B) (i : nat) (b : B) :
  tagged src !! i = Some (Some i, b) ↔ src !! i = Some b.
Proof.
  unfold tagged. rewrite list_lookup_imap. destruct (src !! i); naive_solver.
Qed.

Lemma tagged_elem_of {B} (src : list B) (i : nat) (b : B) :
  (Some i, b) ∈ tagged src ↔ src !! i = Some b.
Proof.
  rewrite list_elem_of_lookup. split.
  - intros [k Hk]. pose proof (tagged_lookup _ _ _ _ Hk) as ->.
    by apply tagged_lookup_Some.
  - intros H. exists i. by apply tagged_lookup_Some.
Qed.

Section Surviving.

Context {B : Type} (nl : B).
Context (Sort : sort.SortFn) (HSort : sort.Contract Sort).
Implicit Types (src : list B) (ms : list Method) (m : Method).

(** Every byte of the output is a newline or a byte of the source. *)
Lemma newSrc_elem_of {C} (sep : C) (s : list C) ms out (x : C) :
  newSrc sep Sort s ms = Some out → x ∈ out → x = sep ∨ x ∈ s.
Proof.
  intros (first & last_ & texts & _ & _ & HF & ->)%newSrc_inv.
  rewrite <- Join_blank_line_separated, !elem_of_app.
  intros [H|[H|H]].
  - right. apply elem_of_take in H as (i & Hi & _).
    by eapply list_elem_of_lookup_2.
  - apply elem_of_Join in H as [H|(t & Ht & Hx)].
    + left. rewrite !elem_of_cons in H.
      destruct H as [?|[?|?%not_elem_of_nil]]; done.
    + right. apply list_elem_of_lookup in Ht as [n Hn].
      destruct (Forall2_lookup_r _ _ _ _ _ HF Hn) as (m & _ & Hsrc).
      apply slice_is_Some in Hsrc as (_ & _ & _ & ->).
      apply elem_of_take in Hx as (i & Hi & _). rewrite lookup_drop in Hi.
      by eapply list_elem_of_lookup_2.
  - right. apply list_elem_of_lookup in H as [i Hi]. rewrite lookup_drop in Hi.
    by eapply list_elem_of_lookup_2.
Qed.

(** X10.  On the tagged buffer: the byte at offset [i] of the source is in
    the output exactly when [i] is before [firstStart], at or after
    [lastEnd], or inside the span of a selected unit.  So every byte of
    every unit, and of the text around the block, is kept, and only
    those. *)
Theorem surviving_bytes src decls :
  methods decls ≠ [] →
  spans_ordered src (methods decls) →
  ∃ firstStart lastEnd tbuf,
    firstStartOff Sort src (methods decls) = Some firstStart
    ∧ lastEndOff Sort src (methods decls) = Some lastEnd
    ∧ rewrite (None, nl) Sort (tagged src) decls = Some (Rewritten tbuf)
    ∧ ∀ (i : nat) b,
        (Some i, b) ∈ tbuf
        ↔ src !! i = Some b
          ∧ (Z.of_nat i < firstStart ∨ lastEnd ≤ Z.of_nat i
             ∨ ∃ m, m ∈ methods decls
                    ∧ startOff src m ≤ Z.of_nat i < endOff src m).
Proof.
  intros Hne Hs.
  assert (spans_ordered (tagged src) (methods decls)) as Hs'.
  { eapply Forall_impl; [exact Hs|]. intros m Hm. simpl in *.
    by destruct (tagged_offsets src m) as [-> ->]. }
  destruct (newSrc_Some (None, nl) Sort HSort (tagged src) _ Hne Hs')
    as (first & last_ & texts & Hh & Hl & Ht & Hn).
  destruct (sortedSources_Some Sort HSort (tagged src) _ Hs') as (texts' & Ht' & HF).
  rewrite Ht in Ht'. injection Ht' as <-.
  destruct (tagged_offsets src first) as [Efirst _].
  destruct (tagged_offsets src last_) as [_ Elast].
  rewrite Efirst, Elast in Hn.
  set (tbuf := take _ _ ++ _ ++ drop _ _) in Hn.
  exists (startOff src first), (endOff src last_), tbuf. split_and!.
  - unfold firstStartOff. by rewrite Hh.
  - unfold lastEndOff. by rewrite Hl.
  - by rewrite rewrite_Rewritten, Hn.
  - intros i b. split.
    + intros Hin. split.
      * destruct (newSrc_elem_of _ _ _ _ _ Hn Hin) as [?|Hsrc]; [done|].
        by apply tagged_elem_of.
      * destruct (newSrc_tagged_origin nl Sort HSort src _ tbuf i b Hn Hin)
          as (fs & le & Hfs & Hle & Hor).
        unfold firstStartOff in Hfs. unfold lastEndOff in Hle.
        rewrite Hh in Hfs. rewrite Hl in Hle. by simplify_eq/=.
    + intros [Hb Hwhere]. apply tagged_lookup_Some in Hb.
      pose proof (lookup_lt_Some _ _ _ Hb) as Hlt.
      unfold tbuf. rewrite !elem_of_app.
      destruct Hwhere as [Hlo|[Hhi|(m & Hm & Hspan)]].
      * left. apply elem_of_take. exists i. split; [done|lia].
      * right; right. apply list_elem_of_lookup.
        exists (i - Z.to_nat (endOff src last_))%nat.
        rewrite lookup_drop, <- Hb. f_equal.
        pose proof (Offset_bounds src (end_ last_)). unfold endOff in *. lia.
      * right; left.
        rewrite <- (sortedMethods_perm Sort HSort) in Hm.
        apply list_elem_of_lookup in Hm as [n Hn'].
        destruct (Forall2_lookup_l _ _ _ _ _ HF Hn') as (t & Ht' & Hsrc).
        apply (elem_of_Join_2 _ _ _ t); [by eapply list_elem_of_lookup_2|].
        unfold source_of in Hsrc.
        destruct (tagged_offsets src m) as [Es Ee]. rewrite Es, Ee in Hsrc.
        pose proof (slice_length _ _ _ _ Hsrc) as Hlen.
        apply list_elem_of_lookup.
        exists (i - Z.to_nat (startOff src m))%nat.
        rewrite (slice_lookup _ _ _ _ _ Hsrc) by (unfold len in Hlen; lia).
        rewrite <- Hb. f_equal. lia.
Qed.

End Surviving.

(** ** No byte of the source is copied twice *)

Lemma filter_Forall_id {A} (P : A → Prop) `{∀ x, Decision (P x)} (l : list A) :
  Forall P l → filter P l = l.
Proof.
  induction 1 as [|x l Hx _ IH]; [done|]. by rewrite filter_cons_True, IH.
Qed.

Lemma filter_Forall_nil {A} (P : A → Prop) `{∀ x, Decision (P x)} (l : list A) :
  Forall (fun x => ¬ P x) l → filter P l = [].
Proof.
  induction 1 as [|x l Hx _ IH]; [done|]. by rewrite filter_cons_False.
Qed.

Lemma filter_Join {A} (P : A → Prop) `{∀ x, Decision (P x)}
    (texts : list (list A)) (sep : list A) :
  Forall (fun x => ¬ P x) sep → Forall (Forall P) texts →
  filter P (strings.Join texts sep) = concat texts.
Proof.
  intros Hsep Ht.
  assert (∀ rest, Forall (Forall P) rest →
            filter P (concat (map (fun s => sep ++ s) rest)) = concat rest)
    as Hrest.
  { induction 1 as [|u rest Hu _ IH]; [done|]. simpl.
    by rewrite !filter_app, filter_Forall_nil, filter_Forall_id, IH. }
  destruct Ht as [|t rest Ht Hr]; [done|].
  assert (filter P (t ++ concat (map (fun s => sep ++ s) rest))
          = t ++ concat rest) as Hgen.
  { by rewrite filter_app, filter_Forall_id, Hrest. }
  destruct rest as [|u rest]; [|exact Hgen].
  simpl. by rewrite app_nil_r, filter_Forall_id.
Qed.

Lemma elem_of_concat {A} (x : A) (ls : list (list A)) :
  x ∈ concat ls → ∃ l, x ∈ l ∧ l ∈ ls.
Proof.
  induction ls as [|l ls IH]; simpl; [by intros ?%not_elem_of_nil|].
  rewrite elem_of_app. intros [Hx|Hx].
  - exists l. split; [done|by left].
  - destruct (IH Hx) as (l' & ? & ?). exists l'. split; [done|by right].
Qed.

Lemma Forall_sublist {A} (P : A → Prop) (l1 l2 : list A) :
  l1 `sublist_of` l2 → Forall P l2 → Forall P l1.
Proof.
  rewrite !Forall_forall. intros Hsub H x Hx. apply H.
  by eapply elem_of_sublist.
Qed.

Lemma tagged_NoDup {B} (src : list B) : NoDup (tagged src).
Proof.
  apply NoDup_alt. intros i j [[k|] b] Hi Hj.
  - apply tagged_lookup in Hi, Hj. congruence.
  - unfold tagged in Hi. rewrite list_lookup_imap in Hi.
    by destruct (src !! i).
Qed.

Lemma tagged_is_Some {B} (src : list B) :
  Forall (fun x : option nat * B => is_Some x.1) (tagged src).
Proof.
  apply Forall_forall. intros x (i & Hi)%list_elem_of_lookup.
  unfold tagged in Hi. rewrite list_lookup_imap in Hi.
  destruct (src !! i); simplify_eq/=. by eexists.
Qed.

Lemma slice_sublist {B} (s t : list B) (lo hi : Z) :
  slice s lo hi = Some t → t `sublist_of` s.
Proof.
  intros (_ & _ & _ & ->)%slice_is_Some.
  etrans; [apply sublist_take|apply sublist_drop].
Qed.

Lemma slice_tagged_elem_of {B} (src : list B) (lo hi : Z) t (i : nat) (b : B) :
  slice (tagged src) lo hi = Some t → (Some i, b) ∈ t →
  lo ≤ Z.of_nat i < hi.
Proof.
  intros Hs (k & Hk)%list_elem_of_lookup.
  pose proof (lookup_lt_Some _ _ _ Hk) as Hlt.
  pose proof (slice_length _ _ _ _ Hs) as Hlen.
  rewrite (slice_lookup _ _ _ _ _ Hs Hlt) in Hk.
  apply slice_is_Some in Hs as (? & ? & ? & _).
  apply tagged_lookup in Hk as ->. unfold len in Hlen. lia.
Qed.

Lemma non_overlapping_cons {B} (src : list B) (m : Method) (ms : list Method) :
  non_overlapping src (m :: ms) →
  (∀ m', m' ∈ ms →
         endOff src m ≤ startOff src m' ∨ endOff src m' ≤ startOff src m)
  ∧ non_overlapping src ms.
Proof.
  intros Hno. split.
  - intros m' (k & Hk)%list_elem_of_lookup. by apply (Hno 0%nat (S k)).
  - intros i j a b Hij Ha Hb. apply (Hno (S i) (S j)); [lia|done..].
Qed.

Section NoByteTwice.

Context {B : Type} (nl : B).
Context (Sort : sort.SortFn) (HSort : sort.Contract Sort).
Implicit Types (src : list B) (ms : list Method) (m : Method).

(** Under the invariants every unit lies between the start of the first
    and the end of the last unit by position. *)
Lemma posMethods_region src ms first last_ :
  spans_in_file src ms →
  non_overlapping src ms →
  head (posMethods Sort ms) = Some first →
  last (posMethods Sort ms) = Some last_ →
  ∀ m, m ∈ ms → startOff src first ≤ startOff src m
                ∧ endOff src m ≤ endOff src last_.
Proof.
  intros Hin Hno Hh Hl m Hm.
  pose proof (posMethods_perm Sort HSort ms) as Hperm.
  pose proof (sort.Sort_sorted _ HSort _ _ (sortedMethods Sort ms) ByPos_StrictWeak)
    as Hsorted. fold (posMethods Sort ms) in Hsorted.
  apply (non_overlapping_perm _ _ _ Hperm) in Hno.
  unfold spans_in_file in Hin. rewrite <- Hperm in Hin, Hm.
  rewrite Forall_forall in Hin.
  assert (Hoff : ∀ m, m ∈ posMethods Sort ms → startOff src m = start m - 1).
  { intros m' Hm'. apply Offset_in_file. by apply Hin. }
  rewrite head_lookup in Hh. rewrite last_lookup in Hl.
  pose proof Hm as Hm'. apply list_elem_of_lookup in Hm as [i Hi].
  assert (first ∈ posMethods Sort ms) as Hf' by by eapply list_elem_of_lookup_2.
  assert (last_ ∈ posMethods Sort ms) as Hl' by by eapply list_elem_of_lookup_2.
  split.
  - rewrite !Hoff by done. destruct i as [|i]; [by simplify_eq|].
    pose proof (StronglySorted_lookup _ _ 0 (S i) _ _ Hsorted Hh Hi) as H.
    simpl in H. unfold ByPos_Less in H. rewrite Z.ltb_ge in H; lia.
  - set (n := pred (length (posMethods Sort ms))) in *.
    destruct (decide (i = n)) as [->|Hi']; [by simplify_eq|].
    assert (i < n)%nat as Hlt.
    { apply lookup_lt_Some in Hi. lia. }
    pose proof (StronglySorted_lookup _ _ i n _ _ Hsorted Hi Hl Hlt) as H.
    simpl in H. unfold ByPos_Less in H. rewrite Z.ltb_ge in H.
    pose proof (Hoff m Hm'). pose proof (Hoff last_ Hl').
    destruct (Hin last_ Hl') as [_ ?].
    destruct (Hno i n m last_ Hi' Hi Hl); lia.
Qed.

Lemma concat_texts_NoDup src (U : list Method)
    (texts : list (list (option nat * B))) :
  non_overlapping src U →
  Forall2 (fun m t => slice (tagged src) (startOff src m) (endOff src m)
                      = Some t) U texts →
  NoDup (concat texts).
Proof.
  intros Hno HF. induction HF as [|m t U texts Hm HF IH]; [constructor|].
  apply non_overlapping_cons in Hno as [Hm' Hno]. simpl.
  apply NoDup_app. split_and!.
  - apply (sublist_NoDup _ _ (tagged_NoDup src) (slice_sublist _ _ _ _ Hm)).
  - intros [[i|] b] Hx Hc.
    + pose proof (slice_tagged_elem_of _ _ _ _ _ _ Hm Hx) as Hi.
      apply elem_of_concat in Hc as (t' & Hxt' & Ht').
      apply list_elem_of_lookup in Ht' as [n Hn].
      destruct (Forall2_lookup_r _ _ _ _ _ HF Hn) as (m' & Hm'n & Hsl).
      pose proof (slice_tagged_elem_of _ _ _ _ _ _ Hsl Hxt') as Hi'.
      destruct (Hm' m'); [by eapply list_elem_of_lookup_2|lia..].
    + apply (fun H => elem_of_sublist _ _ _ H (slice_sublist _ _ _ _ Hm)) in Hx.
      pose proof (tagged_is_Some src) as HS. rewrite Forall_forall in HS.
      apply HS in Hx. by destruct Hx.
  - by apply IH.
Qed.

(** X11.  Under the invariants of the data model no byte of the source is
    in the output twice: the bytes of the tagged output that carry an
    offset are pairwise distinct. *)
Theorem no_byte_twice src decls :
  methods decls ≠ [] →
  spans_in_file src (methods decls) →
  non_overlapping src (methods decls) →
  ∃ tbuf,
    rewrite (None, nl) Sort (tagged src) decls = Some (Rewritten tbuf)
    ∧ NoDup (filter (fun x : option nat * B => is_Some x.1) tbuf).
Proof.
  intros Hne Hin Hno. set (ms := methods decls) in *.
  assert (spans_ordered src ms) as Hs.
  { eapply Forall_impl; [exact Hin|]. intros m [_ ?]. simpl. lia. }
  assert (spans_ordered (tagged src) ms) as Hs'.
  { eapply Forall_impl; [exact Hs|]. intros m Hm. simpl in *.
    by destruct (tagged_offsets src m) as [-> ->]. }
  destruct (newSrc_Some (None, nl) Sort HSort (tagged src) _ Hne Hs')
    as (first & last_ & texts & Hh & Hl & Ht & Hn).
  destruct (sortedSources_Some Sort HSort (tagged src) _ Hs')
    as (texts' & Ht' & HF).
  rewrite Ht in Ht'. injection Ht' as <-.
  destruct (tagged_offsets src first) as [Efirst _].
  destruct (tagged_offsets src last_) as [_ Elast].
  rewrite Efirst, Elast in Hn.
  pose proof (posMethods_region src ms first last_ Hin Hno Hh Hl) as Hreg.
  assert (Forall2 (fun m t => slice (tagged src) (startOff src m) (endOff src m)
                              = Some t) (sortedMethods Sort ms) texts) as HF'.
  { eapply Forall2_impl; [exact HF|]. intros m t Hm. unfold source_of in Hm.
    by destruct (tagged_offsets src m) as [<- <-]. }
  eexists. split; [rewrite rewrite_Rewritten by done; fold ms; by rewrite Hn|].
  pose proof (tagged_is_Some src) as HS.
  assert (Forall (Forall (fun x : option nat * B => is_Some x.1)) texts) as Hall.
  { apply Forall_forall. intros t (n & Hn')%list_elem_of_lookup.
    destruct (Forall2_lookup_r _ _ _ _ _ HF' Hn') as (m & _ & Hsl).
    eapply Forall_sublist; [|exact HS]. by eapply slice_sublist. }
  rewrite !filter_app, filter_Join; [|by repeat constructor; intros [? ?]|done].
  rewrite (filter_Forall_id _ (take _ _))
    by apply (Forall_sublist _ _ _ (sublist_take _ _) HS).
  rewrite (filter_Forall_id _ (drop _ _))
    by apply (Forall_sublist _ _ _ (sublist_drop _ _) HS).
  apply NoDup_app. split_and!.
  - apply (sublist_NoDup _ _ (tagged_NoDup src) (sublist_take _ _)).
  - intros [[i|] b] Hx Hy.
    + apply elem_of_take in Hx as (k & Hk & Hlt).
      apply tagged_lookup in Hk as ->.
      apply elem_of_app in Hy as [Hy|Hy].
      * apply elem_of_concat in Hy as (t & Hxt & Ht').
        apply list_elem_of_lookup in Ht' as [n Hn'].
        destruct (Forall2_lookup_r _ _ _ _ _ HF' Hn') as (m & Hm & Hsl).
        pose proof (slice_tagged_elem_of _ _ _ _ _ _ Hsl Hxt) as Hi.
        destruct (Hreg m) as [? _]; [|lia].
        rewrite <- (sortedMethods_perm Sort HSort ms).
        by eapply list_elem_of_lookup_2.
      * apply list_elem_of_lookup in Hy as [k' Hk']. rewrite lookup_drop in Hk'.
        apply tagged_lookup in Hk'.
        destruct (Hreg first) as [_ ?].
        { rewrite <- (posMethods_perm Sort HSort ms).
          by apply head_Some_elem_of. }
        assert (first ∈ ms) as Hfm.
        { rewrite <- (posMethods_perm Sort HSort ms).
          by apply head_Some_elem_of. }
        unfold spans_in_file in Hin. rewrite Forall_forall in Hin.
        destruct (Hin first Hfm) as [_ ?].
        pose proof (Offset_bounds src (start first)).
        pose proof (Offset_bounds src (end_ last_)).
        unfold startOff, endOff in *. lia.
    + apply (fun H => elem_of_sublist _ _ _ H (sublist_take _ _)) in Hx.
      rewrite Forall_forall in HS. apply HS in Hx. by destruct Hx.
  - apply NoDup_app. split_and!.
    + apply (concat_texts_NoDup src (sortedMethods Sort ms)); [|done].
      by apply (non_overlapping_perm _ _ _ (sortedMethods_perm Sort HSort ms)).
    + intros [[i|] b] Hx Hy.
      * apply elem_of_concat in Hx as (t & Hxt & Ht').
        apply list_elem_of_lookup in Ht' as [n Hn'].
        destruct (Forall2_lookup_r _ _ _ _ _ HF' Hn') as (m & Hm & Hsl).
        pose proof (slice_tagged_elem_of _ _ _ _ _ _ Hsl Hxt) as Hi.
        apply list_elem_of_lookup in Hy as [k Hk]. rewrite lookup_drop in Hk.
        apply tagged_lookup in Hk.
        destruct (Hreg m) as [_ ?]; [|lia].
        rewrite <- (sortedMethods_perm Sort HSort ms).
        by eapply list_elem_of_lookup_2.
      * apply (fun H => elem_of_sublist _ _ _ H (sublist_drop _ _)) in Hy.
        rewrite Forall_forall in HS. apply HS in Hy. by destruct Hy.
    + apply (sublist_NoDup _ _ (tagged_NoDup src) (sublist_drop _ _)).
Qed.

End NoByteTwice.

(** ** The file grows by the separators at most *)

Section LengthBound.

Context {B : Type} (nl : B).
Context (Sort : sort.SortFn) (HSort : sort.Contract Sort).
Implicit Types (src : list B) (ms : list Method) (m : Method).

(** Spans that do not overlap fit between the start of the first and the
    end of the last of them. *)
Lemma spans_length_region src ms first last_ :
  spans_in_file src ms →
  non_overlapping src ms →
  head (posMethods Sort ms) = Some first →
  last (posMethods Sort ms) = Some last_ →
  spans_length src ms ≤ endOff src last_ - startOff src first.
Proof.
  intros Hin Hno Hh Hl.
  assert (spans_ordered (tagged src) ms) as Hs'.
  { eapply Forall_impl; [exact Hin|]. intros m [_ Hm]. simpl in *.
    destruct (tagged_offsets src m) as [-> ->]. lia. }
  destruct (sortedSources_Some Sort HSort (tagged src) _ Hs')
    as (texts & _ & HF).
  assert (Forall2 (fun m t => slice (tagged src) (startOff src m) (endOff src m)
                              = Some t) (sortedMethods Sort ms) texts) as HF'.
  { eapply Forall2_impl; [exact HF|]. intros m t Hm. unfold source_of in Hm.
    by destruct (tagged_offsets src m) as [<- <-]. }
  pose proof (sortedMethods_perm Sort HSort ms) as Hperm.
  pose proof (posMethods_region Sort HSort src ms first last_ Hin Hno Hh Hl)
    as Hreg.
  assert (Z.of_nat (length (concat texts))
          = spans_length src (sortedMethods Sort ms)) as Hlen.
  { clear -HF'. unfold spans_length.
    induction HF' as [|m t U ts Hm _ IH]; [done|]. csimpl.
    rewrite length_app, Nat2Z.inj_add, IH.
    pose proof (slice_length _ _ _ _ Hm) as Ht. unfold len in Ht.
    lia. }
  rewrite <- (spans_length_perm src _ _ Hperm), <- Hlen.
  assert (first ∈ ms) as Hfm.
  { rewrite <- (posMethods_perm Sort HSort ms). by apply head_Some_elem_of. }
  assert (last_ ∈ ms) as Hlm.
  { rewrite <- (posMethods_perm Sort HSort ms). rewrite last_lookup in Hl.
    by eapply list_elem_of_lookup_2. }
  pose proof (Offset_bounds src (start first)) as Hb1.
  pose proof (Offset_bounds src (end_ last_)) as Hb2.
  fold (startOff src first) in Hb1. fold (endOff src last_) in Hb2.
  destruct (Hreg first Hfm) as [_ Hfl].
  unfold spans_in_file in Hin. rewrite Forall_forall in Hin.
  destruct (Hin first Hfm) as [_ Hfirst].
  set (R := take (Z.to_nat (endOff src last_ - startOff src first))
              (drop (Z.to_nat (startOff src first)) (tagged src))).
  assert (length R = Z.to_nat (endOff src last_ - startOff src first)) as HR.
  { unfold R. rewrite length_take, length_drop. unfold tagged.
    rewrite length_imap. unfold len in Hb2. lia. }
  assert (concat texts ⊆+ R) as Hsub.
  { apply NoDup_submseteq.
    - apply (concat_texts_NoDup src (sortedMethods Sort ms)); [|done].
      by apply (non_overlapping_perm _ _ _ Hperm).
    - intros x (t & Hxt & Ht)%elem_of_concat.
      apply list_elem_of_lookup in Ht as [n Hn].
      destruct (Forall2_lookup_r _ _ _ _ _ HF' Hn) as (m & Hm & Hsl).
      assert (m ∈ ms) as Hmm.
      { rewrite <- Hperm. by eapply list_elem_of_lookup_2. }
      destruct (Hreg m Hmm) as [Hlo Hhi].
      apply list_elem_of_lookup in Hxt as [k Hk].
      pose proof (lookup_lt_Some _ _ _ Hk) as Hlt.
      pose proof (slice_length _ _ _ _ Hsl) as Ht. unfold len in Ht.
      rewrite (slice_lookup _ _ _ _ _ Hsl Hlt) in Hk.
      apply slice_is_Some in Hsl as (? & ? & ? & _).
      apply list_elem_of_lookup.
      exists (Z.to_nat (startOff src m) + k
              - Z.to_nat (startOff src first))%nat.
      unfold R. rewrite lookup_take_lt by lia. rewrite lookup_drop.
      rewrite <- Hk. f_equal. lia. }
  apply submseteq_length in Hsub. lia.
Qed.

(** X12.  Under the invariants of the data model the buffer produced is
    longer than the source by the separators at most: two bytes for each
    unit but the last. *)
Theorem rewrite_length_bound src decls buf :
  spans_in_file src (methods decls) →
  non_overlapping src (methods decls) →
  rewrite nl Sort src decls = Some (Rewritten buf) →
  len buf ≤ len src + 2 * (Z.of_nat (length (methods decls)) - 1).
Proof.
  intros Hin Hno Hrw.
  destruct (rewrite_len nl Sort HSort src decls buf Hrw)
    as (first & last_ & Hh & Hl & ->).
  pose proof (spans_length_region src _ first last_ Hin Hno Hh Hl). lia.
Qed.

End LengthBound.

(** ** [ByName] and [ByPos] as sort.Interface *)

Lemma index_Some {A} (m : list A) (i : Z) (x : A) :
  index m i = Some x ↔ 0 ≤ i ∧ m !! Z.to_nat i = Some x.
Proof.
  unfold index. case_bool_decide; [|split; [done|by intros [? _]]].
  split; [done|by intros [_ ?]].
Qed.

Lemma index_is_Some {A} (m : list A) (i : Z) :
  is_Some (index m i) ↔ 0 ≤ i < Z.of_nat (length m).
Proof.
  unfold index. case_bool_decide as Hi.
  - rewrite lookup_lt_is_Some. lia.
  - split; [by intros [? ?]|lia].
Qed.

Lemma index_None {A} (m : list A) (i : Z) :
  index m i = None ↔ ¬ (0 ≤ i < Z.of_nat (length m)).
Proof. rewrite <- index_is_Some, eq_None_not_Some. done. Qed.

(** The body that [ByName.Swap] and [ByPos.Swap] share. *)
Lemma Swap_body (m : list Method) (i j : Z) :
  (0 ≤ i < Z.of_nat (length m) → 0 ≤ j < Z.of_nat (length m) →
   ∃ m', ByName.Swap m i j = Some m'
         ∧ m' ≡ₚ m
         ∧ length m' = length m
         ∧ index m' i = index m j
         ∧ index m' j = index m i
         ∧ (∀ k, k ≠ i → k ≠ j → index m' k = index m k)
         ∧ ByName.Swap m' i j = Some m)
  ∧ (¬ (0 ≤ i < Z.of_nat (length m) ∧ 0 ≤ j < Z.of_nat (length m)) →
     ByName.Swap m i j = None).
Proof.
  split.
  - intros Hi Hj.
    destruct (proj2 (index_is_Some m i) Hi) as [mi Hmi].
    destruct (proj2 (index_is_Some m j) Hj) as [mj Hmj].
    pose proof Hmi as Hmi'. pose proof Hmj as Hmj'.
    apply index_Some in Hmi' as [_ Hmi'], Hmj' as [_ Hmj'].
    set (m' := <[Z.to_nat j := mi]> (<[Z.to_nat i := mj]> m)).
    assert (length m' = length m) as Hlen.
    { unfold m'. by rewrite !length_insert. }
    assert (index m' j = Some mi) as Hj'.
    { apply index_Some. split; [lia|]. unfold m'.
      apply list_lookup_insert_eq. rewrite length_insert. lia. }
    assert (index m' i = Some mj) as Hi'.
    { apply index_Some. split; [lia|]. unfold m'.
      destruct (decide (Z.to_nat j = Z.to_nat i)) as [E|Hne].
      - assert (i = j) as -> by lia. rewrite Hmi in Hmj. injection Hmj as ->.
        apply list_lookup_insert_eq. rewrite length_insert. lia.
      - rewrite list_lookup_insert_ne by done.
        apply list_lookup_insert_eq. lia. }
    exists m'. unfold ByName.Swap. rewrite Hmi, Hmj, Hi', Hj'. simpl.
    split_and!; [done| |done|done|done| |].
    + by apply Permutation_insert_swap.
    + intros k Hki Hkj. unfold index. case_bool_decide; [|done]. unfold m'.
      rewrite !list_lookup_insert_ne by lia. done.
    + f_equal. unfold m'.
      destruct (decide (Z.to_nat j = Z.to_nat i)) as [E|Hne].
      * rewrite E, !list_insert_insert_eq.
        assert (i = j) as -> by lia. rewrite Hmi in Hmj. injection Hmj as ->.
        by apply list_insert_id.
      * rewrite (list_insert_insert_ne _ (Z.to_nat i) (Z.to_nat j)) by done.
        rewrite !list_insert_insert_eq, (list_insert_id _ _ _ Hmi').
        by apply list_insert_id.
  - intros Hout. unfold ByName.Swap.
    destruct (index m i) as [mi|] eqn:Hmi; [|done].
    destruct (index m j) as [mj|] eqn:Hmj; [|done].
    exfalso. apply Hout. split; apply index_is_Some; by eexists.
Qed.

(** X13.  [ByName.Swap(i, j)] with both indices in range exchanges the
    two elements and leaves the others, so the slice keeps its length and
    its elements, and swapping again restores it; with an index out of
    range it panics. *)
Theorem ByName_Swap_exchanges (m : list Method) (i j : Z) :
  (0 ≤ i < ByName.Len m → 0 ≤ j < ByName.Len m →
   ∃ m', ByName.Swap m i j = Some m'
         ∧ m' ≡ₚ m
         ∧ ByName.Len m' = ByName.Len m
         ∧ index m' i = index m j
         ∧ index m' j = index m i
         ∧ (∀ k, k ≠ i → k ≠ j → index m' k = index m k)
         ∧ ByName.Swap m' i j = Some m)
  ∧ (¬ (0 ≤ i < ByName.Len m ∧ 0 ≤ j < ByName.Len m) →
     ByName.Swap m i j = None).
Proof.
  unfold ByName.Len. destruct (Swap_body m i j) as [H1 H2]. split; [|done].
  intros Hi Hj. destruct (H1 Hi Hj) as (m' & ? & ? & Hlen & ?).
  exists m'. by rewrite Hlen.
Qed.

(** X14.  [ByPos.Swap] does the same to a [ByPos]. *)
Theorem ByPos_Swap_exchanges (m : list Method) (i j : Z) :
  (0 ≤ i < ByPos.Len m → 0 ≤ j < ByPos.Len m →
   ∃ m', ByPos.Swap m i j = Some m'
         ∧ m' ≡ₚ m
         ∧ ByPos.Len m' = ByPos.Len m
         ∧ index m' i = index m j
         ∧ index m' j = index m i
         ∧ (∀ k, k ≠ i → k ≠ j → index m' k = index m k)
         ∧ ByPos.Swap m' i j = Some m)
  ∧ (¬ (0 ≤ i < ByPos.Len m ∧ 0 ≤ j < ByPos.Len m) →
     ByPos.Swap m i j = None).
Proof.
  unfold ByPos.Len. change ByPos.Swap with ByName.Swap.
  destruct (Swap_body m i j) as [H1 H2]. split; [|done].
  intros Hi Hj. destruct (H1 Hi Hj) as (m' & ? & ? & Hlen & ?).
  exists m'. by rewrite Hlen.
Qed.

(** X15.  [ByName.Less] is defined exactly on the indices of the slice; it
    compares names byte-wise and is a strict weak order on the indices:
    irreflexive, asymmetric and transitive, with "neither is less"
    transitive too, and two elements neither of which is less have the
    same name. *)
Theorem ByName_Less_strict_weak (m : list Method) :
  (∀ i j, is_Some (ByName.Less m i j)
          ↔ 0 ≤ i < ByName.Len m ∧ 0 ≤ j < ByName.Len m)
  ∧ (∀ i a, index m i = Some a → ByName.Less m i i = Some false)
  ∧ (∀ i j, ByName.Less m i j = Some true → ByName.Less m j i = Some false)
  ∧ (∀ i j k, ByName.Less m i j = Some true → ByName.Less m j k = Some true →
              ByName.Less m i k = Some true)
  ∧ (∀ i j k, ByName.Less m i j = Some false → ByName.Less m j k = Some false →
              ByName.Less m i k = Some false)
  ∧ (∀ i j a b, index m i = Some a → index m j = Some b →
                ByName.Less m i j = Some false →
                ByName.Less m j i = Some false → name a = name b).
Proof.
  assert (∀ i j r, ByName.Less m i j = Some r
            ↔ ∃ a b, index m i = Some a ∧ index m j = Some b
                     ∧ r = String.ltb (name a) (name b)) as Hless.
  { intros i j r. unfold ByName.Less, name.
    destruct (index m i) as [a|]; simpl; [|split; [done|by intros (? & ? & ? & _)]].
    destruct (index m j) as [b|]; simpl.
    - split; [intros [= <-]; by eexists _, _|].
      by intros (? & ? & [= <-] & [= <-] & ->).
    - split; [done|by intros (? & ? & _ & ? & _)]. }
  destruct String_ltb_StrictWeak as [Hasym Hneg].
  split_and!.
  - intros i j. unfold ByName.Less, ByName.Len.
    rewrite <- !index_is_Some.
    destruct (index m i) as [a|], (index m j) as [b|]; simpl;
      split; (intros [[? ?] [? ?]] || intros [? ?]); try done; eauto.
  - intros i a Ha. apply Hless. exists a, a.
    by rewrite String_ltb_irrefl.
  - intros i j (a & b & Ha & Hb & Hab)%Hless. apply Hless.
    exists b, a. split_and!; [done..|]. symmetry. by apply Hasym.
  - intros i j k (a & b & Ha & Hb & Hab)%Hless (b' & c & Hb' & Hc & Hbc)%Hless.
    rewrite Hb in Hb'. injection Hb' as <-.
    apply Hless. exists a, c. split_and!; [done..|].
    symmetry. by apply (String_ltb_trans _ (name b)).
  - intros i j k (a & b & Ha & Hb & Hab)%Hless (b' & c & Hb' & Hc & Hbc)%Hless.
    rewrite Hb in Hb'. injection Hb' as <-.
    apply Hless. exists a, c. split_and!; [done..|].
    symmetry. by apply (Hneg (name c) (name b) (name a)).
  - intros i j a b Ha Hb (a' & b' & Ha' & Hb' & Hab)%Hless
      (b'' & a'' & Hb'' & Ha'' & Hba)%Hless.
    rewrite Ha in Ha', Ha''. rewrite Hb in Hb', Hb''.
    injection Ha' as <-. injection Ha'' as <-.
    injection Hb' as <-. injection Hb'' as <-.
    by apply String_ltb_total.
Qed.

(** X16.  [ByPos.Less] is defined exactly on the indices of the slice and
    is a strict weak order on them by start position; two elements
    neither of which is less start at the same position. *)
Theorem ByPos_Less_strict_weak (m : list Method) :
  (∀ i j, is_Some (ByPos.Less m i j)
          ↔ 0 ≤ i < ByPos.Len m ∧ 0 ≤ j < ByPos.Len m)
  ∧ (∀ i a, index m i = Some a → ByPos.Less m i i = Some false)
  ∧ (∀ i j, ByPos.Less m i j = Some true → ByPos.Less m j i = Some false)
  ∧ (∀ i j k, ByPos.Less m i j = Some true → ByPos.Less m j k = Some true →
              ByPos.Less m i k = Some true)
  ∧ (∀ i j k, ByPos.Less m i j = Some false → ByPos.Less m j k = Some false →
              ByPos.Less m i k = Some false)
  ∧ (∀ i j a b, index m i = Some a → index m j = Some b →
                ByPos.Less m i j = Some false →
                ByPos.Less m j i = Some false → start a = start b).
Proof.
  assert (∀ i j r, ByPos.Less m i j = Some r
            ↔ ∃ a b, index m i = Some a ∧ index m j = Some b
                     ∧ r = (start a <? start b)) as Hless.
  { intros i j r. unfold ByPos.Less.
    destruct (index m i) as [a|]; simpl; [|split; [done|by intros (? & ? & ? & _)]].
    destruct (index m j) as [b|]; simpl.
    - split; [intros [= <-]; by eexists _, _|].
      by intros (? & ? & [= <-] & [= <-] & ->).
    - split; [done|by intros (? & ? & _ & ? & _)]. }
  split_and!.
  - intros i j. unfold ByPos.Less, ByPos.Len.
    rewrite <- !index_is_Some.
    destruct (index m i) as [a|], (index m j) as [b|]; simpl;
      split; (intros [[? ?] [? ?]] || intros [? ?]); try done; eauto.
  - intros i a Ha. apply Hless. exists a, a. by rewrite Z.ltb_irrefl.
  - intros i j (a & b & Ha & Hb & Hab)%Hless. apply Hless.
    exists b, a. split_and!; [done..|]. symmetry in Hab.
    apply Z.ltb_lt in Hab. symmetry. apply Z.ltb_ge. lia.
  - intros i j k (a & b & Ha & Hb & Hab)%Hless (b' & c & Hb' & Hc & Hbc)%Hless.
    rewrite Hb in Hb'. injection Hb' as <-.
    apply Hless. exists a, c. split_and!; [done..|].
    symmetry in Hab, Hbc. apply Z.ltb_lt in Hab, Hbc. symmetry.
    apply Z.ltb_lt. lia.
  - intros i j k (a & b & Ha & Hb & Hab)%Hless (b' & c & Hb' & Hc & Hbc)%Hless.
    rewrite Hb in Hb'. injection Hb' as <-.
    apply Hless. exists a, c. split_and!; [done..|].
    symmetry in Hab, Hbc. apply Z.ltb_ge in Hab, Hbc. symmetry.
    apply Z.ltb_ge. lia.
  - intros i j a b Ha Hb (a' & b' & Ha' & Hb' & Hab)%Hless
      (b'' & a'' & Hb'' & Ha'' & Hba)%Hless.
    rewrite Ha in Ha', Ha''. rewrite Hb in Hb', Hb''.
    injection Ha' as <-. injection Ha'' as <-.
    injection Hb' as <-. injection Hb'' as <-.
    symmetry in Hab, Hba. apply Z.ltb_ge in Hab, Hba. lia.
Qed.

(** ** The insertion sort of the sort package on [ByName] and [ByPos] *)

Section Refinement.

(** An interface on slices of methods whose [Len] and [Swap] are those of
    [ByName] and [ByPos] and whose [Less] compares two elements. *)
Context (less : Method → Method → bool).
Context (I : zsortinterface.Interface (list Method)).
Hypothesis HLen : ∀ m, zsortinterface.Len I m = Z.of_nat (length m).
Hypothesis HLess : ∀ m i j,
  zsortinterface.Less I m i j
  = (mi ← index m i; mj ← index m j; Some (less mi mj)).
Hypothesis HSwap : ∀ m i j,
  zsortinterface.Swap I m i j
  = (mi ← index m i; mj ← index m j;
     Some (<[Z.to_nat j := mi]> (<[Z.to_nat i := mj]> m))).

Lemma index_middle (P R : list Method) (x : Method) (i : Z) :
  i = Z.of_nat (length P) → index (P ++ x :: R) i = Some x.
Proof.
  intros ->. apply index_Some. split; [lia|].
  apply list_lookup_middle. lia.
Qed.

(** The inner loop sinks the element at index [length P] into [P]. *)
Lemma insertionSort_inner_sink (P R : list Method) (x : Method) :
  zsortinterface.insertionSort_inner I (P ++ x :: R) 0 (length P)
  = Some (reverse (sort.sink less x (reverse P)) ++ R).
Proof.
  revert R. induction P as [|y P IH] using rev_ind; intros R; [done|].
  rewrite length_app, Nat.add_1_r, reverse_snoc. simpl sort.sink.
  cbn [zsortinterface.insertionSort_inner].
  rewrite <- (app_assoc P [y]). simpl app.
  assert (index (P ++ y :: x :: R) (0 + Z.of_nat (S (length P))) = Some x) as Hx.
  { change (P ++ y :: x :: R) with (P ++ [y] ++ x :: R). rewrite app_assoc.
    apply index_middle. rewrite length_app. simpl. lia. }
  assert (index (P ++ y :: x :: R) (0 + Z.of_nat (S (length P)) - 1) = Some y)
    as Hy.
  { apply index_middle. lia. }
  rewrite HLess, Hx, Hy. simpl. destruct (less x y) eqn:Hxy.
  - rewrite HSwap, Hx, Hy. simpl.
    assert (<[Z.to_nat (0 + Z.of_nat (S (length P)) - 1) := x]>
              (<[Z.to_nat (0 + Z.of_nat (S (length P))) := y]>
                 (P ++ y :: x :: R)) = P ++ x :: y :: R) as ->.
    { replace (Z.to_nat (0 + Z.of_nat (S (length P)) - 1)) with (length P + 0)%nat
        by lia.
      replace (Z.to_nat (0 + Z.of_nat (S (length P)))) with (length P + 1)%nat
        by lia.
      by rewrite !insert_app_r. }
    rewrite IH, reverse_cons. by rewrite <- app_assoc.
  - by rewrite !reverse_cons, reverse_involutive, <- !app_assoc.
Qed.

Lemma sink_length (x : Method) (before : list Method) :
  length (sort.sink less x before) = S (length before).
Proof. by rewrite (Permutation_length (sink_perm less x before)). Qed.

Lemma insertionSort_outer_foldl (rest acc : list Method) :
  zsortinterface.insertionSort_outer I (reverse acc ++ rest) 0
    (Z.of_nat (length (reverse acc ++ rest))) (length rest)
  = Some (reverse (foldl (fun before x => sort.sink less x before) acc rest)).
Proof.
  revert acc. induction rest as [|x rest IH]; intros acc.
  { simpl. by rewrite app_nil_r. }
  cbn [zsortinterface.insertionSort_outer length foldl].
  replace (Z.to_nat (Z.of_nat (length (reverse acc ++ x :: rest))
                     - Z.of_nat (S (length rest)) - 0))
    with (length (reverse acc))
    by (rewrite length_app; simpl; lia).
  rewrite insertionSort_inner_sink, reverse_involutive. simpl.
  specialize (IH (sort.sink less x acc)).
  replace (Z.of_nat (length (reverse acc ++ x :: rest)))
    with (Z.of_nat (length (reverse (sort.sink less x acc) ++ rest))); [done|].
  rewrite !length_app, !length_reverse, sink_length. simpl. lia.
Qed.

(** Run through the interface, the insertion sort does not panic and
    returns what the sort on elements returns. *)
Lemma Sort_small_insertionSort (m : list Method) :
  zsortinterface.Sort_small I m = Some (sort.insertionSort Method less m).
Proof.
  unfold zsortinterface.Sort_small, zsortinterface.insertionSort,
    sort.insertionSort. rewrite HLen.
  destruct m as [|x rest]; [done|].
  replace (Z.to_nat (Z.of_nat (length (x :: rest)) - (0 + 1)))
    with (length rest) by (simpl; lia).
  apply (insertionSort_outer_foldl rest [x]).
Qed.

(** Elements that [less] does not tell apart keep their order. *)
Lemma sink_filter (P : Method → Prop) `{∀ x, Decision (P x)}
    (x : Method) (before : list Method) :
  (∀ a b, less a b = true → P a → P b → False) →
  filter P (sort.sink less x before) = filter P (x :: before).
Proof.
  intros Hless. induction before as [|y r IH]; [done|]. simpl.
  destruct (less x y) eqn:Hxy; [|done].
  rewrite filter_cons, IH, !filter_cons.
  destruct (decide (P y)), (decide (P x)); try done.
  exfalso. by eapply Hless.
Qed.

Lemma insertionSort_filter (P : Method → Prop) `{∀ x, Decision (P x)}
    (m : list Method) :
  (∀ a b, less a b = true → P a → P b → False) →
  filter P (sort.insertionSort Method less m) = filter P m.
Proof.
  intros Hless. unfold sort.insertionSort.
  assert (∀ acc, filter P (foldl (fun before x => sort.sink less x before) acc m)
                 = filter P (reverse m ++ acc)) as Hf.
  { induction m as [|x m IH]; intros acc; [done|]. simpl.
    rewrite IH, reverse_cons, <- app_assoc, !filter_app.
    rewrite sink_filter by done.
    change (x :: acc) with ([x] ++ acc). by rewrite filter_app. }
  by rewrite filter_reverse, Hf, app_nil_r, filter_reverse, reverse_involutive.
Qed.

End Refinement.

(** X17.  Go's insertion sort, which [sort.Sort] runs on a slice of at
    most 12 elements, calls only [ByName]'s [Len], [Less] and [Swap].  On
    any slice it does not panic; it returns the methods in ascending name
    order, the same elements, and methods with the same name in the
    order they had. *)
Theorem ByName_insertionSort (m : list Method) :
  ∃ out, zsortinterface.Sort_small ByName_Interface m = Some out
         ∧ out = sort.insertionSort Method ByName_Less m
         ∧ out ≡ₚ m
         ∧ (∀ (i : nat) a b, out !! i = Some a → out !! S i = Some b →
              String.leb (name a) (name b) = true)
         ∧ ∀ k, filter (fun x => name x = k) out
                = filter (fun x => name x = k) m.
Proof.
  exists (sort.insertionSort Method ByName_Less m). split_and!.
  - by apply Sort_small_insertionSort.
  - done.
  - apply insertionSort_perm.
  - intros i a b Ha Hb.
    pose proof (insertionSort_sorted ByName_Less m ByName_StrictWeak) as Hs.
    pose proof (StronglySorted_lookup _ _ i (S i) a b Hs Ha Hb) as H.
    simpl in H. unfold ByName_Less in H. rewrite String_leb_ltb, H by lia. done.
  - intros k. apply insertionSort_filter.
    intros a b Hab Ha Hb. unfold ByName_Less in Hab.
    rewrite Ha, Hb, String_ltb_irrefl in Hab. done.
Qed.

(** X18.  The same for [ByPos]: the insertion sort through [ByPos]'s
    methods does not panic and returns the methods in ascending order of
    start position, the same elements, and methods that start at the same
    position in the order they had. *)
Theorem ByPos_insertionSort (m : list Method) :
  ∃ out, zsortinterface.Sort_small ByPos_Interface m = Some out
         ∧ out = sort.insertionSort Method ByPos_Less m
         ∧ out ≡ₚ m
         ∧ (∀ (i : nat) a b, out !! i = Some a → out !! S i = Some b →
              start a ≤ start b)
         ∧ ∀ p, filter (fun x => start x = p) out
                = filter (fun x => start x = p) m.
Proof.
  exists (sort.insertionSort Method ByPos_Less m). split_and!.
  - by apply Sort_small_insertionSort.
  - done.
  - apply insertionSort_perm.
  - intros i a b Ha Hb.
    pose proof (insertionSort_sorted ByPos_Less m ByPos_StrictWeak) as Hs.
    pose proof (StronglySorted_lookup _ _ i (S i) a b Hs Ha Hb) as H.
    simpl in H. unfold ByPos_Less in H. rewrite Z.ltb_ge in H; lia.
  - intros p. apply insertionSort_filter.
    intros a b Hab Ha Hb. unfold ByPos_Less in Hab.
    apply Z.ltb_lt in Hab. lia.
Qed.

(** ** The theorems above on the sample file *)

(** A second sort: the insertion sort run on the reversed slice. *)
Lemma insertionSort_reverse_Contract :
  sort.Contract (fun A less l => sort.insertionSort A less (reverse l)).
Proof.
  split.
  - intros A less l. by rewrite insertionSort_perm, reverse_Permutation.
  - intros A less l. apply insertionSort_sorted.
Qed.

(** A method whose end lies before its start. *)
Lemma rewrite_panics_iff_witness :
  let decls := [Sample.func None Sample.recv_t "A" 30 20] in
  sort.Contract sort.insertionSort
  ∧ rewrite newline sort.insertionSort Sample.src decls = None
  ∧ (rewrite newline sort.insertionSort Sample.src decls = None
     ↔ ∃ m, m ∈ methods decls ∧ endOff Sample.src m < startOff Sample.src m).
Proof.
  intros decls. split; [exact insertionSort_Contract|].
  split; [by vm_compute|].
  exact (rewrite_panics_iff newline sort.insertionSort insertionSort_Contract
           Sample.src decls).
Defined.

Lemma rewrite_length_witness :
  sort.Contract sort.insertionSort
  ∧ rewrite newline sort.insertionSort Sample.src Sample.decls
    = Some (Rewritten Sample.out)
  ∧ ∃ firstStart lastEnd,
      firstStartOff sort.insertionSort Sample.src (methods Sample.decls)
        = Some firstStart
      ∧ lastEndOff sort.insertionSort Sample.src (methods Sample.decls)
        = Some lastEnd
      ∧ len Sample.out
        = firstStart + spans_length Sample.src (methods Sample.decls)
          + 2 * (Z.of_nat (length (methods Sample.decls)) - 1)
          + (len Sample.src - lastEnd).
Proof.
  split; [exact insertionSort_Contract|].
  split; [exact Sample_rewrite|].
  exact (rewrite_length newline sort.insertionSort insertionSort_Contract
           Sample.src Sample.decls Sample.out Sample_rewrite).
Defined.

Lemma rewrite_sort_independent_witness :
  let Sort' : sort.SortFn :=
    fun A less l => sort.insertionSort A less (reverse l) in
  sort.Contract sort.insertionSort
  ∧ sort.Contract Sort'
  ∧ NoDup (name <$> methods Sample.decls)
  ∧ NoDup (start <$> methods Sample.decls)
  ∧ rewrite newline sort.insertionSort Sample.src Sample.decls
    = rewrite newline Sort' Sample.src Sample.decls.
Proof.
  intros Sort'.
  assert (NoDup (name <$> methods Sample.decls)) as Hn.
  { apply (bool_decide_unpack _). by vm_compute. }
  assert (NoDup (start <$> methods Sample.decls)) as Hs.
  { apply (bool_decide_unpack _). by vm_compute. }
  split; [exact insertionSort_Contract|].
  split; [exact insertionSort_reverse_Contract|].
  split; [exact Hn|]. split; [exact Hs|].
  exact (rewrite_sort_independent newline sort.insertionSort
           insertionSort_Contract Sort' Sample.src Sample.decls
           insertionSort_reverse_Contract Hn Hs).
Defined.

Lemma Sample_out_in_file :
  Forall (fun m => 1 ≤ start m ≤ 1 + len Sample.out
                   ∧ startOff Sample.out m ≤ endOff Sample.out m)
    (methods Sample.out_decls).
Proof. repeat constructor; by vm_compute. Qed.

Lemma Sample_out_packed :
  packed newline Sample.out (methods Sample.out_decls).
Proof. repeat split; by vm_compute. Qed.

(** The sample file after the rewrite. *)
Lemma rewrite_fixed_point_witness :
  sort.Contract sort.insertionSort
  ∧ methods Sample.out_decls ≠ []
  ∧ Forall (fun m => 1 ≤ start m ≤ 1 + len Sample.out
                     ∧ startOff Sample.out m ≤ endOff Sample.out m)
      (methods Sample.out_decls)
  ∧ NoDup (name <$> methods Sample.out_decls)
  ∧ packed newline Sample.out (methods Sample.out_decls)
  ∧ rewrite newline sort.insertionSort Sample.out Sample.out_decls
    = Some (Rewritten Sample.out).
Proof.
  assert (methods Sample.out_decls ≠ []) as Hne by (by vm_compute).
  assert (NoDup (name <$> methods Sample.out_decls)) as Hn.
  { apply (bool_decide_unpack _). by vm_compute. }
  split; [exact insertionSort_Contract|].
  split; [exact Hne|]. split; [exact Sample_out_in_file|].
  split; [exact Hn|]. split; [exact Sample_out_packed|].
  exact (rewrite_fixed_point newline sort.insertionSort insertionSort_Contract
           Sample.out Sample.out_decls Hne Sample_out_in_file Hn
           Sample_out_packed).
Defined.

(** Two methods of different types with the same name. *)
Lemma rewrite_fixed_point_insertionSort_witness :
  let src := String.list_byte_of_string "func (t T) A() {}

func (u U) A() {}
" in
  let decls := [Sample.func None Sample.recv_t "A" 1 18;
                Sample.func None Sample.recv_t "A" 20 37] in
  methods decls ≠ []
  ∧ Forall (fun m => 1 ≤ start m ≤ 1 + len src
                     ∧ startOff src m ≤ endOff src m) (methods decls)
  ∧ packed newline src (methods decls)
  ∧ rewrite newline sort.insertionSort src decls = Some (Rewritten src).
Proof.
  intros src decls.
  assert (methods decls ≠ []) as Hne by (by vm_compute).
  assert (Forall (fun m => 1 ≤ start m ≤ 1 + len src
                           ∧ startOff src m ≤ endOff src m) (methods decls))
    as Hin by (repeat constructor; by vm_compute).
  assert (packed newline src (methods decls)) as Hp
    by (repeat split; by vm_compute).
  split; [exact Hne|]. split; [exact Hin|]. split; [exact Hp|].
  exact (rewrite_fixed_point_insertionSort newline src decls Hne Hin Hp).
Defined.

Lemma surviving_bytes_witness :
  sort.Contract sort.insertionSort
  ∧ methods Sample.decls ≠ []
  ∧ spans_ordered Sample.src (methods Sample.decls)
  ∧ ∃ firstStart lastEnd tbuf,
      firstStartOff sort.insertionSort Sample.src (methods Sample.decls)
        = Some firstStart
      ∧ lastEndOff sort.insertionSort Sample.src (methods Sample.decls)
        = Some lastEnd
      ∧ rewrite (None, newline) sort.insertionSort (tagged Sample.src)
          Sample.decls = Some (Rewritten tbuf)
      ∧ ∀ (i : nat) b,
          (Some i, b) ∈ tbuf
          ↔ Sample.src !! i = Some b
            ∧ (Z.of_nat i < firstStart ∨ lastEnd ≤ Z.of_nat i
               ∨ ∃ m, m ∈ methods Sample.decls
                      ∧ startOff Sample.src m ≤ Z.of_nat i
                        < endOff Sample.src m).
Proof.
  assert (methods Sample.decls ≠ []) as Hne by (by vm_compute).
  split; [exact insertionSort_Contract|].
  split; [exact Hne|]. split; [exact Sample_spans_ordered|].
  exact (surviving_bytes newline sort.insertionSort insertionSort_Contract
           Sample.src Sample.decls Hne Sample_spans_ordered).
Defined.

Lemma no_byte_twice_witness :
  sort.Contract sort.insertionSort
  ∧ methods Sample.decls ≠ []
  ∧ spans_in_file Sample.src (methods Sample.decls)
  ∧ non_overlapping Sample.src (methods Sample.decls)
  ∧ ∃ tbuf,
      rewrite (None, newline) sort.insertionSort (tagged Sample.src)
        Sample.decls = Some (Rewritten tbuf)
      ∧ NoDup (filter (fun x : option nat * byte => is_Some x.1) tbuf).
Proof.
  assert (methods Sample.decls ≠ []) as Hne by (by vm_compute).
  split; [exact insertionSort_Contract|].
  split; [exact Hne|]. split; [exact Sample_spans_in_file|].
  split; [exact Sample_non_overlapping|].
  exact (no_byte_twice newline sort.insertionSort insertionSort_Contract
           Sample.src Sample.decls Hne Sample_spans_in_file
           Sample_non_overlapping).
Defined.

Lemma rewrite_length_bound_witness :
  sort.Contract sort.insertionSort
  ∧ spans_in_file Sample.src (methods Sample.decls)
  ∧ non_overlapping Sample.src (methods Sample.decls)
  ∧ rewrite newline sort.insertionSort Sample.src Sample.decls
    = Some (Rewritten Sample.out)
  ∧ len Sample.out
    ≤ len Sample.src + 2 * (Z.of_nat (length (methods Sample.decls)) - 1).
Proof.
  split; [exact insertionSort_Contract|].
  split; [exact Sample_spans_in_file|].
  split; [exact Sample_non_overlapping|].
  split; [exact Sample_rewrite|].
  exact (rewrite_length_bound newline sort.insertionSort insertionSort_Contract
           Sample.src Sample.decls Sample.out Sample_spans_in_file
           Sample_non_overlapping Sample_rewrite).
Defined.
